(** * Signal.ts: a signal/slot registry with pluggable aggregators

    A shallow embedding of [src/Signal.ts] (classes [Signal] and
    [Aggregators]) and the properties of its registry, its emit protocol
    and its aggregators.

    Conventions of the embedding:
    - the elements of a JavaScript array are a [list]; an array object is
      stored in the machine state and referred to by an [ArrayRef], so that
      an update in place is seen through every reference to the array and
      through no reference to another array;
    - an object that is compared with [===] (a callback, a slot) carries
      the address it was allocated at, and [===] compares addresses;
    - a method is a function on the machine state [Machine], returning its
      result together with the next state;
    - a listener is client code: a program over the public interface of the
      signal, run by the interpreter [run]. *)

From Stdlib Require Import List ZArith Lia Bool Arith.
Import ListNotations.

(** ** Array primitives *)

Section ArrayPrimitives.
Context {A : Type}.

(** [Array.prototype.findIndex], scanning from index [k]: the index of the
    first element satisfying [p], and [-1] when there is none. *)
Fixpoint findIndex_from (k : Z) (p : A -> bool) (arr : list A) : Z :=
  match arr with
  | [] => (-1)%Z
  | x :: rest => if p x then k else findIndex_from (k + 1)%Z p rest
  end.

Definition findIndex (p : A -> bool) (arr : list A) : Z :=
  findIndex_from 0%Z p arr.

(** [Array.prototype.indexOf]: [findIndex] for [===] with the searched
    element; [same] is [===] on the element type. *)
Definition indexOf (same : A -> A -> bool) (arr : list A) (x : A) : Z :=
  findIndex_from 0%Z (fun y => same y x) arr.

(** [arr.splice(index, 1)] for a non-negative [index]: the array without
    the element at [index]; nothing is deleted when [index] is past the
    end. *)
Fixpoint splice1 (index : nat) (arr : list A) : list A :=
  match arr, index with
  | [], _ => []
  | _ :: rest, O => rest
  | x :: rest, S i => x :: splice1 i rest
  end.

(** [arr.push(x)]. *)
Definition push (arr : list A) (x : A) : list A := arr ++ [x].
End ArrayPrimitives.

(** ** Values compared by [===] *)

(** A callback is a function object; [===] on it is identity of address. *)
Definition Callback := nat.

(** [type Context = any].  Under [===] a value is [undefined], [NaN] (which
    is equal to nothing, itself included), or any other value, identified
    up to [===] by a number. *)
Inductive Context : Type :=
| Undefined
| NaN
| Value (v : nat).

Definition strict_eq (a b : Context) : bool :=
  match a, b with
  | Undefined, Undefined => true
  | Value x, Value y => Nat.eqb x y
  | _, _ => false
  end.

(** An optional parameter that is left out is [undefined]. *)
Definition optional (context : option Context) : Context :=
  match context with
  | Some c => c
  | None => Undefined
  end.

(** [interface SignalSlot]: the object literal built by [add].  [address]
    is the identity of the object; its method [remove] is [slot_remove]
    below. *)
Record SignalSlot : Type := mkSlot {
  address : nat;
  callback : Callback;
  context : Context
}.

(** [===] on slot objects. *)
Definition same_slot (a b : SignalSlot) : bool :=
  Nat.eqb (address a) (address b).

(** The test of [remove] and [has]:
    [ctx.callback === callback && ctx.context === context]. *)
Definition matches (cb : Callback) (c : Context) (ctx : SignalSlot) : bool :=
  Nat.eqb (callback ctx) cb && strict_eq (context ctx) c.

(** ** The class Signal *)

Section Model.
Context {Args R R2 Exn World : Type}.

(** [type Aggregator<R, R2> = (items: R[]) => R2]. *)
Definition Aggregator : Type := list R -> R2.

(** The fields of a [Signal].  [_slots] is assigned once, by the
    constructor, so the field stands for the array object it holds: what
    [push] and [splice] do to that array, in place, is an update of the
    field. *)
Record Signal : Type := mkSignal {
  _slots : list SignalSlot;
  aggregator : option Aggregator
}.

(** A reference to an array object: the array held by the field [_slots],
    or an array allocated later (a copy made by [slice]), by its address. *)
Inductive ArrayRef : Type :=
| ThisSlots
| Copy (a : nat).

(** The state a call runs in: the signal, the arrays allocated by [slice],
    the next free address for a slot object and the state of the client
    code ([World]: whatever the closures of the listeners read and write). *)
Record Machine : Type := mkMachine {
  signal : Signal;
  copies : list (list SignalSlot);
  next_address : nat;
  world : World
}.

Definition with_slots (m : Machine) (arr : list SignalSlot) : Machine :=
  mkMachine (mkSignal arr (aggregator (signal m)))
            (copies m) (next_address m) (world m).

Definition with_world (m : Machine) (w : World) : Machine :=
  mkMachine (signal m) (copies m) (next_address m) w.

(** The elements of an array object, as they are in state [m]. *)
Definition read (arr : ArrayRef) (m : Machine) : list SignalSlot :=
  match arr with
  | ThisSlots => _slots (signal m)
  | Copy a => nth a (copies m) []
  end.

(** [arr.slice()]: allocates a new array with the elements [arr] has now.
    Later updates of [arr] do not reach the new array, and the other way
    round. *)
Definition slice (arr : ArrayRef) (m : Machine) : ArrayRef * Machine :=
  (Copy (length (copies m)),
   mkMachine (signal m) (copies m ++ [read arr m]) (next_address m) (world m)).

(** [constructor(aggregator?)]. *)
Definition new_Signal (agg : option Aggregator) (w : World) : Machine :=
  mkMachine (mkSignal [] agg) [] 0 w.

(** [get slots()]: the elements of [this._slots]. *)
Definition slots (m : Machine) : list SignalSlot := read ThisSlots m.

(** [add(callback, context?)]: allocates the slot object and pushes it. *)
Definition add (cb : Callback) (c : option Context) (m : Machine)
  : SignalSlot * Machine :=
  let slot := mkSlot (next_address m) cb (optional c) in
  (slot,
   mkMachine (mkSignal (push (slots m) slot) (aggregator (signal m)))
             (copies m) (S (next_address m)) (world m)).

(** [remove(callback, context?)]. *)
Definition remove (cb : Callback) (c : option Context) (m : Machine)
  : bool * Machine :=
  let index := findIndex (matches cb (optional c)) (slots m) in
  if (0 <=? index)%Z
  then (true, with_slots m (splice1 (Z.to_nat index) (slots m)))
  else (false, m).

(** [has(callback, context?)]. *)
Definition has (cb : Callback) (c : option Context) (m : Machine) : bool :=
  (0 <=? findIndex (matches cb (optional c)) (slots m))%Z.

(** [private removeSlot(slot)]. *)
Definition removeSlot (slot : SignalSlot) (m : Machine) : Machine :=
  let index := indexOf same_slot (slots m) slot in
  if (0 <=? index)%Z
  then with_slots m (splice1 (Z.to_nat index) (slots m))
  else m.

(** The method [remove] of a slot: [() => this.removeSlot(slot)]. *)
Definition slot_remove (slot : SignalSlot) (m : Machine) : Machine :=
  removeSlot slot m.

(** ** Listeners and emit *)

(** How a call ends: with a value, or with a thrown exception. *)
Inductive Completion (A : Type) : Type :=
| Normal (a : A)
| Thrown (e : Exn).
Arguments Normal {A} a.
Arguments Thrown {A} e.

(** The body of a listener, as far as the signal can observe it: it
    returns or throws, and on the way it may call the public interface of
    the signal ([add], [remove], [has], [slots], and [remove] of any slot
    it holds) and read and write the state of its closure.  [_slots] is
    private and the arrays made by [slice] are local to the call that made
    them, so this is all a listener can do to the registry; a nested
    [emit] changes the registry only through the listeners it runs, which
    are such programs again.  Each constructor continues with the result of
    the call. *)
Inductive Listener : Type :=
| Return (v : R)
| Throw (e : Exn)
| CallAdd (cb : Callback) (c : option Context) (k : SignalSlot -> Listener)
| CallRemove (cb : Callback) (c : option Context) (k : bool -> Listener)
| CallHas (cb : Callback) (c : option Context) (k : bool -> Listener)
| ReadSlots (k : list SignalSlot -> Listener)
| CallSlotRemove (slot : SignalSlot) (k : Listener)
| ReadWorld (k : World -> Listener)
| WriteWorld (w : World) (k : Listener).

(** Running the body of a listener. *)
Fixpoint run (body : Listener) (m : Machine) : Completion R * Machine :=
  match body with
  | Return v => (Normal v, m)
  | Throw e => (Thrown e, m)
  | CallAdd cb c k => let (slot, m1) := add cb c m in run (k slot) m1
  | CallRemove cb c k => let (found, m1) := remove cb c m in run (k found) m1
  | CallHas cb c k => run (k (has cb c m)) m
  | ReadSlots k => run (k (slots m)) m
  | CallSlotRemove slot k => run k (slot_remove slot m)
  | ReadWorld k => run (k (world m)) m
  | WriteWorld w k => run k (with_world m w)
  end.

(** The code of every function object: what the callback at an address
    does when it is applied to a receiver and an argument list. *)
Variable code : Callback -> Context -> Args -> Listener.

(** [slot.callback.apply(slot.context, args)]. *)
Definition apply_callback (slot : SignalSlot) (args : Args) (m : Machine)
  : Completion R * Machine :=
  run (code (callback slot) (context slot) args) m.

(** One entry per application of a callback: the slot, the state in which
    its callback was applied, how the call ended and the state it left.
    The log is an observation of the run, not part of the state. *)
Record Invocation : Type := mkInvocation {
  listener : SignalSlot;
  state_before : Machine;
  completion : Completion R;
  state_after : Machine
}.

(** [arr.forEach(slot => slot.callback.apply(slot.context, args))], from
    index [k] on, with [count] indices to go.  The length is read once,
    before the loop; the element of an index is read when its turn comes,
    from the array as it is then, and an index that is no longer there is
    passed over.  A throw leaves the loop. *)
Fixpoint forEach_from (arr : ArrayRef) (k count : nat) (args : Args)
  (m : Machine) : Completion unit * Machine * list Invocation :=
  match count with
  | O => (Normal tt, m, [])
  | S count' =>
      match nth_error (read arr m) k with
      | None => forEach_from arr (S k) count' args m
      | Some slot =>
          match apply_callback slot args m with
          | (Thrown e, m1) =>
              (Thrown e, m1, [mkInvocation slot m (Thrown e) m1])
          | (Normal v, m1) =>
              let '(c, m2, log) := forEach_from arr (S k) count' args m1 in
              (c, m2, mkInvocation slot m (Normal v) m1 :: log)
          end
      end
  end.

Definition forEach_apply (arr : ArrayRef) (args : Args) (m : Machine)
  : Completion unit * Machine * list Invocation :=
  forEach_from arr 0 (length (read arr m)) args m.

(** [arr.map(slot => slot.callback.apply(slot.context, args))]: the same
    loop, collecting the returned values in index order.  (For an index
    that is no longer there [map] leaves a hole in its result; the list
    has no element for it.) *)
Fixpoint map_from (arr : ArrayRef) (k count : nat) (args : Args)
  (m : Machine) : Completion (list R) * Machine * list Invocation :=
  match count with
  | O => (Normal [], m, [])
  | S count' =>
      match nth_error (read arr m) k with
      | None => map_from arr (S k) count' args m
      | Some slot =>
          match apply_callback slot args m with
          | (Thrown e, m1) =>
              (Thrown e, m1, [mkInvocation slot m (Thrown e) m1])
          | (Normal v, m1) =>
              let '(c, m2, log) := map_from arr (S k) count' args m1 in
              (match c with
               | Normal items => Normal (v :: items)
               | Thrown e => Thrown e
               end, m2, mkInvocation slot m (Normal v) m1 :: log)
          end
      end
  end.

Definition map_apply (arr : ArrayRef) (args : Args) (m : Machine)
  : Completion (list R) * Machine * list Invocation :=
  map_from arr 0 (length (read arr m)) args m.

(** What an [emit] call did: how it ended ([None] is [undefined]), the
    state it left, the callbacks it applied and the argument of every
    call of the aggregator, both in order. *)
Record Emission : Type := mkEmission {
  outcome : Completion (option R2);
  after : Machine;
  invoked : list Invocation;
  aggregated : list (list R)
}.

(** [emit(...args)]. *)
Definition emit (args : Args) (m : Machine) : Emission :=
  let (slots, m0) := slice ThisSlots m in
  match aggregator (signal m0) with
  | None =>
      let '(c, m1, log) := forEach_apply slots args m0 in
      match c with
      | Normal _ => mkEmission (Normal None) m1 log []
      | Thrown e => mkEmission (Thrown e) m1 log []
      end
  | Some agg =>
      let '(c, m1, log) := map_apply slots args m0 in
      match c with
      | Normal items => mkEmission (Normal (Some (agg items))) m1 log [items]
      | Thrown e => mkEmission (Thrown e) m1 log []
      end
  end.

(** The slots an [emit] applied, in order. *)
Definition invoked_slots (e : Emission) : list SignalSlot :=
  map listener (invoked e).

(** Applying the callbacks of a list of slots one after the other, as the
    loops of [emit] do over an array that does not change meanwhile. *)
Fixpoint visit (l : list SignalSlot) (args : Args) (m : Machine)
  : Completion (list R) * Machine * list Invocation :=
  match l with
  | [] => (Normal [], m, [])
  | slot :: rest =>
      match apply_callback slot args m with
      | (Thrown e, m1) => (Thrown e, m1, [mkInvocation slot m (Thrown e) m1])
      | (Normal v, m1) =>
          let '(c, m2, log) := visit rest args m1 in
          (match c with
           | Normal items => Normal (v :: items)
           | Thrown e => Thrown e
           end, m2, mkInvocation slot m (Normal v) m1 :: log)
      end
  end.
End Model.

Arguments Normal {Exn A} a.
Arguments Thrown {Exn A} e.

(** ** Sequences of registry calls *)

Section Operations.
Context {R R2 World : Type}.

(** A call that changes the registry: [add], [remove], or the method
    [remove] of a slot. *)
Inductive Operation : Type :=
| OpAdd (cb : Callback) (c : option Context)
| OpRemove (cb : Callback) (c : option Context)
| OpSlotRemove (slot : SignalSlot).

Definition perform (m : @Machine R R2 World) (op : Operation)
  : @Machine R R2 World :=
  match op with
  | OpAdd cb c => snd (add cb c m)
  | OpRemove cb c => snd (remove cb c m)
  | OpSlotRemove slot => slot_remove slot m
  end.

Definition perform_all (ops : list Operation) (m : @Machine R R2 World)
  : @Machine R R2 World :=
  fold_left perform ops m.

(** The states a signal can be in: a new signal, and whatever [add],
    [remove], the method [remove] of a slot, a write of the client's own
    state and the copy of an array make of a state. *)
Inductive reachable : @Machine R R2 World -> Prop :=
| reach_new agg w : reachable (new_Signal agg w)
| reach_add m cb c : reachable m -> reachable (snd (add cb c m))
| reach_remove m cb c : reachable m -> reachable (snd (remove cb c m))
| reach_slot_remove m slot : reachable m -> reachable (slot_remove slot m)
| reach_world m w : reachable m -> reachable (with_world m w)
| reach_slice m arr : reachable m -> reachable (snd (slice arr m)).
End Operations.

(** ** The registry as the specification words it

    Every slot ever added, in insertion order, each with a mark that says
    whether it has been removed since.  The view [still_registered] is what
    the specification says [slots] shows: the slots that were added and not
    removed later, in insertion order. *)

Definition History : Type := list (SignalSlot * bool).

Definition still_registered (h : History) : list SignalSlot :=
  map fst (filter (fun entry => negb (snd entry)) h).

(** Marks the first entry that is not marked yet and satisfies [p]. *)
Fixpoint mark_first (p : SignalSlot -> bool) (h : History) : History :=
  match h with
  | [] => []
  | (slot, gone) :: rest =>
      if negb gone && p slot then (slot, true) :: rest
      else (slot, gone) :: mark_first p rest
  end.

Definition record (h : History) (op : Operation) : History :=
  match op with
  | OpAdd cb c => h ++ [(mkSlot (length h) cb (optional c), false)]
  | OpRemove cb c => mark_first (matches cb (optional c)) h
  | OpSlotRemove slot => mark_first (fun s => same_slot s slot) h
  end.

Definition record_all (ops : list Operation) : History :=
  fold_left record ops [].

(** ** The class Aggregators *)

(** [Aggregators.ARRAY]. *)
Definition ARRAY {T : Type} (items : list T) : list T := items.

Section Promises.
Context {Exn : Type}.

(** How a promise settles. *)
Inductive Settlement (T : Type) : Type :=
| Fulfilled (v : T)
| Rejected (e : Exn).
Arguments Fulfilled {T} v.
Arguments Rejected {T} e.

(** A promise, as far as its observers can tell: whether it settles at all
    and, if so, at which tick of the job queue and how.  A promise that is
    already settled when it is handed over has tick [0]. *)
Definition Promise (T : Type) : Type := option (nat * Settlement T).

(** The record [Promise.all] keeps while it waits: the array of values
    (unset until the element's resolve function has run), the count of
    elements still awaited, and the state of the promise it returned. *)
Record AllState (T : Type) : Type := mkAll {
  values : list (option T);
  remaining : nat;
  result : Promise (list T)
}.
Arguments mkAll {T} values remaining result.
Arguments values {T} a.
Arguments remaining {T} a.
Arguments result {T} a.

(** Settling the returned promise; a promise settles once. *)
Definition settle {T} (t : nat) (s : Settlement (list T)) (st : AllState T)
  : AllState T :=
  match result st with
  | None => mkAll (values st) (remaining st) (Some (t, s))
  | Some _ => st
  end.

Fixpoint set_nth {A} (i : nat) (x : A) (l : list A) : list A :=
  match l, i with
  | [], _ => []
  | _ :: rest, O => x :: rest
  | y :: rest, S j => y :: set_nth j x rest
  end.

(** The values array, read once every element is set. *)
Definition collected {T} (vals : list (option T)) : list T :=
  flat_map (fun o => match o with Some v => [v] | None => [] end) vals.

(** The state after the loop over the items: one unset value per item; the
    count was started at 1 and is decremented once after the loop, which
    resolves the promise at once when there is no item. *)
Definition all_start {T} (n : nat) : AllState T :=
  let count := 1 + n - 1 in
  let st := mkAll (repeat None n) count None in
  if count =? 0 then settle 0 (Fulfilled (collected (values st))) st else st.

(** The resolve function of element [i]: it runs once, stores the value and
    resolves the returned promise when it was the last one awaited. *)
Definition resolve_element {T} (t i : nat) (v : T) (st : AllState T)
  : AllState T :=
  match nth_error (values st) i with
  | Some None =>
      let vals := set_nth i (Some v) (values st) in
      let count := remaining st - 1 in
      let st1 := mkAll vals count (result st) in
      if count =? 0 then settle t (Fulfilled (collected vals)) st1 else st1
  | _ => st
  end.

(** A reaction job: at tick [t], element [i] settled with [s].  Fulfilment
    runs the element's resolve function, rejection the reject function of
    the returned promise. *)
Definition Job (T : Type) : Type := (nat * nat * Settlement T)%type.

Definition react {T} (st : AllState T) (job : Job T) : AllState T :=
  match job with
  | (t, i, Fulfilled v) => resolve_element t i v st
  | (t, _, Rejected e) => settle t (Rejected e) st
  end.

(** The reactions that run at tick [t], in the order in which
    [Promise.all] registered them: the order of the items. *)
Definition due {T} (items : list (Promise T)) (t : nat) : list (Job T) :=
  flat_map
    (fun ip : nat * Promise T =>
       match snd ip with
       | Some (t', s) => if t' =? t then [(t, fst ip, s)] else []
       | None => []
       end)
    (combine (seq 0 (length items)) items).

(** The last tick at which an item settles. *)
Definition horizon {T} (items : list (Promise T)) : nat :=
  fold_right
    (fun p acc => match p with Some (t, _) => Nat.max t acc | None => acc end)
    0 items.

(** All reactions, tick by tick. *)
Definition jobs {T} (items : list (Promise T)) : list (Job T) :=
  flat_map (due items) (seq 0 (S (horizon items))).

(** [Promise.all(items)]. *)
Definition Promise_all {T} (items : list (Promise T)) : Promise (list T) :=
  result (fold_left react (jobs items) (all_start (length items))).

(** [Aggregators.AWAIT]. *)
Definition AWAIT {T} (items : list (Promise T)) : Promise (list T) :=
  Promise_all items.

(** [Aggregators.AWAIT_VOID]: the promise of an [async] function whose body
    awaits [Promise.all(items)] and returns nothing. *)
Definition AWAIT_VOID {T} (items : list (Promise T)) : Promise unit :=
  match Promise_all items with
  | Some (t, Fulfilled _) => Some (t, Fulfilled tt)
  | Some (t, Rejected e) => Some (t, Rejected e)
  | None => None
  end.
End Promises.

Arguments Fulfilled {Exn T} v.
Arguments Rejected {Exn T} e.
Arguments mkAll {Exn T} values remaining result.
Arguments values {Exn T} a.
Arguments remaining {Exn T} a.
Arguments result {Exn T} a.

(** ** Auxiliary list functions of the proofs *)

(** Position of the first element satisfying [p]. *)
Fixpoint first_index {A : Type} (p : A -> bool) (l : list A) : option nat :=
  match l with
  | [] => None
  | x :: rest =>
      if p x then Some 0
      else match first_index p rest with
           | Some i => Some (S i)
           | None => None
           end
  end.

(** The list without its first element satisfying [p]. *)
Fixpoint remove_first {A : Type} (p : A -> bool) (l : list A) : list A :=
  match l with
  | [] => []
  | x :: rest => if p x then rest else x :: remove_first p rest
  end.

(** The slots of a state are distinct objects allocated before the next
    free address. *)
Definition well_formed {R R2 World : Type} (m : @Machine R R2 World) : Prop :=
  NoDup (map address (slots m)) /\
  forall s, In s (slots m) -> address s < next_address m.

(** A listener that neither throws nor changes the registry: it may query
    the signal and use the state of its closure, and then returns. *)
Inductive passive {R Exn World : Type} : @Listener R Exn World -> Prop :=
| passive_Return v : passive (Return v)
| passive_CallHas cb c k : (forall b, passive (k b)) -> passive (CallHas cb c k)
| passive_ReadSlots k : (forall l, passive (k l)) -> passive (ReadSlots k)
| passive_ReadWorld k : (forall w, passive (k w)) -> passive (ReadWorld k)
| passive_WriteWorld w k : passive k -> passive (WriteWorld w k).

(** The number of values [Promise.all] has not received yet. *)
Fixpoint count_none {T : Type} (vals : list (option T)) : nat :=
  match vals with
  | [] => 0
  | None :: rest => S (count_none rest)
  | Some _ :: rest => count_none rest
  end.

(** A reaction job of [Promise.all(items)]: element [i] of [items] settles
    at tick [t] with [s]. *)
Definition valid_job {Exn T : Type} (items : list (@Promise Exn T))
  (job : @Job Exn T) : Prop :=
  nth_error items (snd (fst job)) = Some (Some (fst (fst job), snd job)).

(** What holds of the state of [Promise.all(items)] between two jobs: the
    count is the number of unset values, a set value is the value of its
    item, and the returned promise is pending while values are awaited,
    fulfilled with the values once all are set, or rejected with the
    reason of an item. *)
Definition all_invariant {Exn T : Type} (items : list (@Promise Exn T))
  (st : @AllState Exn T) : Prop :=
  length (values st) = length items /\
  remaining st = count_none (values st) /\
  (forall i v, nth_error (values st) i = Some (Some v) ->
               exists t, nth_error items i = Some (Some (t, Fulfilled v))) /\
  match result st with
  | None => 0 < remaining st
  | Some (_, Fulfilled vs) => values st = map Some vs
  | Some (t, Rejected e) => In (Some (t, Rejected e)) items
  end.

(** Every item is fulfilled, item [i] with the value [i] of [vs]. *)
Definition all_fulfilled {Exn T : Type} (items : list (@Promise Exn T))
  (vs : list T) : Prop :=
  Forall2 (fun p v => exists t, p = Some (t, Fulfilled v)) items vs.

(** The returned promise, if settled, settled no later than [bound]. *)
Definition settled_by {Exn T : Type} (bound : nat) (st : @AllState Exn T)
  : Prop :=
  forall t x, result st = Some (t, x) -> t <= bound.

(** ** Scenarios *)

Module Scenario.

(** Listeners over numbers: they return a number, throw a number, and are
    called without arguments.
    - callback 1 adds callback 9, removes callback 2 by value, returns 10;
    - callback 2 returns 20;
    - callback 3 throws 99;
    - callback 4 asks whether callback 2 is registered and returns 40;
    - any other callback returns 90. *)
Definition code (cb : Callback) (this : Context) (args : unit)
  : @Listener nat nat unit :=
  match cb with
  | 1 => CallAdd 9 None (fun _ => CallRemove 2 None (fun _ => Return 10))
  | 2 => Return 20
  | 3 => Throw 99
  | 4 => CallHas 2 None (fun _ => Return 40)
  | _ => Return 90
  end.

Definition fresh : @Machine nat (list nat) unit := new_Signal (Some ARRAY) tt.

Definition slot0 (cb : Callback) : SignalSlot := mkSlot 0 cb Undefined.
Definition slot1 (cb : Callback) : SignalSlot := mkSlot 1 cb Undefined.
Definition slot2 (cb : Callback) : SignalSlot := mkSlot 2 cb Undefined.

(** Callbacks 1 and 2 registered, in this order. *)
Definition mutating : @Machine nat (list nat) unit :=
  perform_all [OpAdd 1 None; OpAdd 2 None] fresh.

(** Callbacks 1, 3 and 2 registered, in this order. *)
Definition throwing : @Machine nat (list nat) unit :=
  perform_all [OpAdd 1 None; OpAdd 3 None; OpAdd 2 None] fresh.

(** Callbacks 2 and 4 registered, in this order. *)
Definition quiet : @Machine nat (list nat) unit :=
  perform_all [OpAdd 2 None; OpAdd 4 None] fresh.

(** Callback 2 registered twice. *)
Definition twice : @Machine nat (list nat) unit :=
  perform_all [OpAdd 2 None; OpAdd 2 None] fresh.

(** Callback 2 registered three times, with the same receiver. *)
Definition thrice : @Machine nat (list nat) unit :=
  perform_all [OpAdd 2 (Some (Value 7)); OpAdd 2 (Some (Value 7));
               OpAdd 2 (Some (Value 7))] fresh.

End Scenario.

Module MoreScenarios.

(** Callbacks 1 and 2 of [Scenario.code] registered on a signal without
    aggregator. *)
Definition silent : @Machine nat nat unit :=
  perform_all [OpAdd 1 None; OpAdd 2 None] (new_Signal None tt).

(** Listeners that return promises of numbers:
    - callback 1 returns a promise fulfilled with 10 at tick 3;
    - callback 2 returns a promise fulfilled with 20 at tick 1;
    - callback 3 returns a promise rejected with 99 at tick 2;
    - any other callback returns a promise that stays pending. *)
Definition async_code (cb : Callback) (this : Context) (args : unit)
  : @Listener (@Promise nat nat) nat unit :=
  match cb with
  | 1 => Return (Some (3, Fulfilled 10))
  | 2 => Return (Some (1, Fulfilled 20))
  | 3 => Return (Some (2, Rejected 99))
  | _ => Return None
  end.

(** Callbacks 1 and 2 registered on a signal with the aggregator [AWAIT]. *)
Definition awaiting : @Machine (@Promise nat nat) (@Promise nat (list nat)) unit :=
  perform_all [OpAdd 1 None; OpAdd 2 None] (new_Signal (Some AWAIT) tt).

(** Callbacks 1, 3 and 2 registered on such a signal. *)
Definition failing : @Machine (@Promise nat nat) (@Promise nat (list nat)) unit :=
  perform_all [OpAdd 1 None; OpAdd 3 None; OpAdd 2 None]
              (new_Signal (Some AWAIT) tt).

End MoreScenarios.

(** * Properties *)

(** ** The array primitives *)

Section ArrayFacts.
Context {A : Type}.
Implicit Types (p : A -> bool) (l : list A).

Lemma findIndex_from_first_index k p l :
  findIndex_from k p l =
  match first_index p l with
  | Some i => (k + Z.of_nat i)%Z
  | None => (-1)%Z
  end.
Proof.
  revert k. induction l as [|x rest IH]; intros k; simpl.
  - reflexivity.
  - destruct (p x).
    + simpl. lia.
    + rewrite IH. destruct (first_index p rest); lia.
Qed.

Lemma splice1_first_index p l i :
  first_index p l = Some i -> splice1 i l = remove_first p l.
Proof.
  revert i. induction l as [|x rest IH]; intros i; simpl.
  - discriminate.
  - destruct (p x).
    + intros [= <-]. reflexivity.
    + destruct (first_index p rest) as [j|] eqn:E; [|discriminate].
      intros [= <-]. simpl. f_equal. apply IH. reflexivity.
Qed.

Lemma remove_first_none p l :
  first_index p l = None -> remove_first p l = l.
Proof.
  induction l as [|x rest IH]; simpl.
  - reflexivity.
  - destruct (p x); [discriminate|].
    destruct (first_index p rest); [discriminate|].
    intros _. f_equal. apply IH. reflexivity.
Qed.

(** The two branches of [remove] and [removeSlot], as one list function. *)
Lemma splice_at_findIndex p l :
  (if (0 <=? findIndex p l)%Z
   then splice1 (Z.to_nat (findIndex p l)) l
   else l) = remove_first p l.
Proof.
  unfold findIndex. rewrite findIndex_from_first_index.
  destruct (first_index p l) as [i|] eqn:E.
  - replace (0 <=? 0 + Z.of_nat i)%Z with true by (symmetry; apply Z.leb_le; lia).
    rewrite Z.add_0_l, Nat2Z.id. apply splice1_first_index. exact E.
  - simpl. symmetry. apply remove_first_none. exact E.
Qed.

Lemma findIndex_found_iff p l :
  (0 <=? findIndex p l)%Z = existsb p l.
Proof.
  unfold findIndex. rewrite findIndex_from_first_index.
  induction l as [|x rest IH]; simpl.
  - reflexivity.
  - destruct (p x); simpl.
    + reflexivity.
    + destruct (first_index p rest) as [i|].
      * rewrite <- IH.
        transitivity true; [apply Z.leb_le|symmetry; apply Z.leb_le]; lia.
      * exact IH.
Qed.

Lemma first_index_app p l1 x l2 :
  (forall y, In y l1 -> p y = false) -> p x = true ->
  first_index p (l1 ++ x :: l2) = Some (length l1).
Proof.
  intros Hl1 Hx. induction l1 as [|y l1 IH]; simpl.
  - rewrite Hx. reflexivity.
  - rewrite (Hl1 y) by (left; reflexivity).
    rewrite IH by (intros z Hz; apply Hl1; right; exact Hz). reflexivity.
Qed.

Lemma remove_first_app p l1 x l2 :
  (forall y, In y l1 -> p y = false) -> p x = true ->
  remove_first p (l1 ++ x :: l2) = l1 ++ l2.
Proof.
  intros Hl1 Hx. induction l1 as [|y l1 IH]; simpl.
  - rewrite Hx. reflexivity.
  - rewrite (Hl1 y) by (left; reflexivity).
    rewrite IH by (intros z Hz; apply Hl1; right; exact Hz). reflexivity.
Qed.

Lemma remove_first_absent p l :
  (forall y, In y l -> p y = false) -> remove_first p l = l.
Proof.
  intros H. induction l as [|x rest IH]; simpl.
  - reflexivity.
  - rewrite (H x) by (left; reflexivity). f_equal.
    apply IH. intros y Hy. apply H. right. exact Hy.
Qed.

Lemma existsb_absent p l :
  (forall y, In y l -> p y = false) -> existsb p l = false.
Proof.
  intros H. induction l as [|x rest IH]; simpl.
  - reflexivity.
  - rewrite (H x) by (left; reflexivity). simpl.
    apply IH. intros y Hy. apply H. right. exact Hy.
Qed.

(** Every list either has a first element satisfying [p] or has none. *)
Lemma first_match_or_none p l :
  (exists l1 x l2, l = l1 ++ x :: l2 /\
                   (forall y, In y l1 -> p y = false) /\ p x = true) \/
  (forall y, In y l -> p y = false).
Proof.
  induction l as [|x rest IH].
  - right. intros y [].
  - destruct (p x) eqn:Hx.
    + left. exists [], x, rest. repeat split; [intros y []|exact Hx].
    + destruct IH as [(l1 & y & l2 & -> & Hl1 & Hy)|Hnone].
      * left. exists (x :: l1), y, l2. repeat split; [|exact Hy].
        intros z [<-|Hz]; [exact Hx|apply Hl1; exact Hz].
      * right. intros y [<-|Hy]; [exact Hx|apply Hnone; exact Hy].
Qed.

Lemma remove_first_incl p l x : In x (remove_first p l) -> In x l.
Proof.
  induction l as [|y rest IH]; simpl.
  - intros [].
  - destruct (p y).
    + intros H. right. exact H.
    + intros [<-|H]; [left; reflexivity|right; apply IH; exact H].
Qed.
End ArrayFacts.

Lemma remove_first_NoDup_map {A B : Type} (f : A -> B) (p : A -> bool) l :
  NoDup (map f l) -> NoDup (map f (remove_first p l)).
Proof.
  induction l as [|x rest IH]; simpl; intros H.
  - constructor.
  - inversion H as [|? ? Hnotin Hrest]; subst.
    destruct (p x); [exact Hrest|].
    simpl. constructor; [|apply IH; exact Hrest].
    intros Hin. apply Hnotin.
    apply in_map_iff in Hin. destruct Hin as (y & Hy & Hin).
    apply in_map_iff. exists y. split; [exact Hy|].
    apply (remove_first_incl p). exact Hin.
Qed.

(** ** The registry *)

Section RegistryFacts.
Context {R R2 World : Type}.
Implicit Types (m : @Machine R R2 World) (slot : SignalSlot).

Lemma with_slots_same m : with_slots m (slots m) = m.
Proof. destruct m as [[arr agg] cps next w]. reflexivity. Qed.

Lemma slots_with_slots m arr : slots (with_slots m arr) = arr.
Proof. reflexivity. Qed.

Lemma remove_as_remove_first m cb c :
  remove cb c m =
  (existsb (matches cb (optional c)) (slots m),
   with_slots m (remove_first (matches cb (optional c)) (slots m))).
Proof.
  unfold remove.
  rewrite <- (splice_at_findIndex (matches cb (optional c)) (slots m)).
  rewrite <- findIndex_found_iff.
  destruct (0 <=? findIndex (matches cb (optional c)) (slots m))%Z.
  - reflexivity.
  - rewrite with_slots_same. reflexivity.
Qed.

Lemma removeSlot_as_remove_first m slot :
  removeSlot slot m =
  with_slots m (remove_first (fun s => same_slot s slot) (slots m)).
Proof.
  unfold removeSlot, indexOf.
  rewrite <- (splice_at_findIndex (fun s => same_slot s slot) (slots m)).
  unfold findIndex.
  destruct (0 <=? findIndex_from 0 (fun s => same_slot s slot) (slots m))%Z.
  - reflexivity.
  - rewrite with_slots_same. reflexivity.
Qed.

Lemma slots_add m cb c :
  slots (snd (add cb c m)) = slots m ++ [fst (add cb c m)].
Proof. reflexivity. Qed.

Lemma same_slot_true a b : same_slot a b = true <-> address a = address b.
Proof. unfold same_slot. apply Nat.eqb_eq. Qed.

Lemma same_slot_false a b : same_slot a b = false <-> address a <> address b.
Proof. unfold same_slot. apply Nat.eqb_neq. Qed.

Lemma NoDup_map_snoc {A B : Type} (f : A -> B) l x :
  NoDup (map f l) -> ~ In (f x) (map f l) -> NoDup (map f (l ++ [x])).
Proof.
  intros Hl Hx. rewrite map_app. simpl.
  induction (map f l) as [|y ys IH]; simpl.
  - constructor; [intros []|constructor].
  - inversion Hl as [|? ? Hy Hys]; subst.
    constructor.
    + rewrite in_app_iff. intros [H|[H|[]]]; [exact (Hy H)|].
      apply Hx. left. symmetry. exact H.
    + apply IH; [exact Hys|]. intros H. apply Hx. right. exact H.
Qed.

Lemma well_formed_with_remove_first m p :
  well_formed m -> well_formed (with_slots m (remove_first p (slots m))).
Proof.
  intros [Hnd Hlt]. split.
  - rewrite slots_with_slots. apply remove_first_NoDup_map. exact Hnd.
  - rewrite slots_with_slots. intros s Hs. simpl.
    apply Hlt. apply (remove_first_incl p). exact Hs.
Qed.

(** Every reachable state is well formed. *)
Lemma reachable_well_formed m : reachable m -> well_formed m.
Proof.
  induction 1 as [agg w|m cb c _ [Hnd Hlt]|m cb c _ IH|m slot _ IH
                 |m w _ [Hnd Hlt]|m arr _ [Hnd Hlt]].
  - split; [constructor|intros s []].
  - split.
    + rewrite slots_add. apply NoDup_map_snoc; [exact Hnd|].
      simpl. intros Hin. apply in_map_iff in Hin.
      destruct Hin as (s & Hs & Hin). apply Hlt in Hin. lia.
    + rewrite slots_add. intros s Hs. apply in_app_iff in Hs. simpl.
      destruct Hs as [Hs|[<-|[]]]; [apply Hlt in Hs; lia|simpl; lia].
  - rewrite remove_as_remove_first. simpl.
    apply well_formed_with_remove_first. exact IH.
  - unfold slot_remove. rewrite removeSlot_as_remove_first.
    apply well_formed_with_remove_first. exact IH.
  - split; [exact Hnd|exact Hlt].
  - split; [exact Hnd|exact Hlt].
Qed.

(** Among distinct objects, [indexOf] finds the object itself. *)
Lemma remove_first_same_slot l1 slot l2 :
  NoDup (map address (l1 ++ slot :: l2)) ->
  remove_first (fun s => same_slot s slot) (l1 ++ slot :: l2) = l1 ++ l2.
Proof.
  intros Hnd. apply remove_first_app.
  - intros y Hy. apply same_slot_false. intros Heq.
    rewrite map_app in Hnd. simpl in Hnd.
    apply NoDup_remove_2 in Hnd. apply Hnd.
    apply in_or_app. left. rewrite <- Heq. apply in_map. exact Hy.
  - apply same_slot_true. reflexivity.
Qed.

(** Once a slot is removed, no registered slot is that object. *)
Lemma remove_first_same_slot_absent l slot :
  NoDup (map address l) ->
  forall y, In y (remove_first (fun s => same_slot s slot) l) ->
            same_slot y slot = false.
Proof.
  induction l as [|x rest IH]; simpl; intros Hnd y Hy.
  - destruct Hy.
  - inversion Hnd as [|? ? Hx Hrest]; subst.
    destruct (same_slot x slot) eqn:Hxs.
    + apply same_slot_true in Hxs. apply same_slot_false.
      intros Heq. apply Hx. rewrite Hxs, <- Heq. apply in_map. exact Hy.
    + destruct Hy as [<-|Hy]; [exact Hxs|]. apply IH; assumption.
Qed.
End RegistryFacts.

Section OperationFacts.
Context {R R2 World : Type}.
Implicit Types (m : @Machine R R2 World) (h : History).

Lemma reachable_perform m op : reachable m -> reachable (perform m op).
Proof.
  intros H. destruct op; simpl.
  - apply reach_add. exact H.
  - apply reach_remove. exact H.
  - apply reach_slot_remove. exact H.
Qed.

Lemma reachable_perform_all ops m :
  reachable m -> reachable (perform_all ops m).
Proof.
  unfold perform_all. revert m.
  induction ops as [|op ops IH]; intros m H; simpl.
  - exact H.
  - apply IH. apply reachable_perform. exact H.
Qed.

Lemma still_registered_snoc h slot :
  still_registered (h ++ [(slot, false)]) = still_registered h ++ [slot].
Proof.
  unfold still_registered. rewrite filter_app, map_app. reflexivity.
Qed.

Lemma still_registered_mark_first p h :
  still_registered (mark_first p h) = remove_first p (still_registered h).
Proof.
  induction h as [|[slot gone] rest IH]; simpl.
  - reflexivity.
  - destruct gone; simpl.
    + exact IH.
    + destruct (p slot); simpl.
      * reflexivity.
      * unfold still_registered in IH |- *. simpl. rewrite IH. reflexivity.
Qed.

Lemma length_mark_first p h : length (mark_first p h) = length h.
Proof.
  induction h as [|[slot gone] rest IH]; simpl.
  - reflexivity.
  - destruct (negb gone && p slot); simpl; [reflexivity|].
    rewrite IH. reflexivity.
Qed.

(** One call keeps the registry and the history in step. *)
Lemma perform_record m h op :
  slots m = still_registered h -> next_address m = length h ->
  slots (perform m op) = still_registered (record h op) /\
  next_address (perform m op) = length (record h op).
Proof.
  intros Hs Hn. destruct op as [cb c|cb c|slot]; unfold perform, record.
  - split.
    + rewrite slots_add, still_registered_snoc, Hs. simpl.
      rewrite Hn. reflexivity.
    + rewrite length_app. simpl. lia.
  - rewrite remove_as_remove_first. simpl snd.
    rewrite still_registered_mark_first, length_mark_first, Hs.
    split; [reflexivity|exact Hn].
  - unfold slot_remove. rewrite removeSlot_as_remove_first.
    rewrite still_registered_mark_first, length_mark_first, Hs.
    split; [reflexivity|exact Hn].
Qed.

Lemma perform_all_record ops m h :
  slots m = still_registered h -> next_address m = length h ->
  slots (fold_left perform ops m) = still_registered (fold_left record ops h).
Proof.
  revert m h. induction ops as [|op ops IH]; intros m h Hs Hn; simpl.
  - exact Hs.
  - destruct (perform_record m h op Hs Hn) as [Hs' Hn'].
    apply IH; assumption.
Qed.
End OperationFacts.

(** C3, as the registry keeps it.  In every reachable state any two entries
    of the slot sequence are distinct slot objects: no slot object is
    registered twice.  (Two entries may well have the same callback and the
    same context: [add] does not look for an equal pair.) *)
Theorem registered_slots_are_distinct_objects
  {R R2 World : Type} (m : @Machine R R2 World) :
  reachable m ->
  forall i j s1 s2,
    i <> j ->
    nth_error (slots m) i = Some s1 ->
    nth_error (slots m) j = Some s2 ->
    address s1 <> address s2.
Proof.
  intros Hreach i j s1 s2 Hij H1 H2 Heq.
  destruct (reachable_well_formed m Hreach) as [Hnd _].
  apply Hij.
  apply (proj1 (NoDup_nth_error (map address (slots m))) Hnd).
  - rewrite length_map. apply nth_error_Some. rewrite H1. discriminate.
  - rewrite !nth_error_map, H1, H2. simpl. rewrite Heq. reflexivity.
Qed.

Lemma registered_slots_are_distinct_objects_witness :
  address (Scenario.slot0 2) <> address (Scenario.slot1 2).
Proof.
  apply (registered_slots_are_distinct_objects Scenario.twice
           (reachable_perform_all _ _ (reach_new _ _)) 0 1);
    [discriminate|reflexivity|reflexivity].
Defined.

(** C3 as stated fails: after [add(f)] twice the slot sequence has two
    entries with the same callback and the same context. *)
Lemma twice_registers_equal_pairs :
  ~ (forall m : @Machine nat (list nat) unit,
        reachable m ->
        forall i j s1 s2,
          i <> j ->
          nth_error (slots m) i = Some s1 ->
          nth_error (slots m) j = Some s2 ->
          ~ (callback s1 = callback s2 /\ context s1 = context s2)).
Proof.
  intros H.
  apply (H Scenario.twice (reachable_perform_all _ _ (reach_new _ _))
           0 1 (Scenario.slot0 2) (Scenario.slot1 2));
    [discriminate|reflexivity|reflexivity|split; reflexivity].
Qed.

(** C4.  After any sequence of [add], [remove] and slot [remove()] calls on
    a new signal, [slots] is the list of the slots that were added and not
    removed since, in the order in which they were added. *)
Theorem slots_are_the_slots_still_registered
  {R R2 World : Type} (ops : list Operation)
  (agg : option (@Aggregator R R2)) (w : World) :
  slots (perform_all ops (new_Signal agg w)) =
  still_registered (record_all ops).
Proof.
  unfold perform_all, record_all.
  apply perform_all_record; reflexivity.
Qed.

(** C5.  [remove(callback, context)] excises the earliest slot whose
    callback and context are both [===] to the arguments (a context that is
    left out is [undefined]) and returns [true]; when no slot matches it
    returns [false] and changes nothing; when a second slot matches, a
    second [remove] with the same arguments excises that one.  One of the
    two cases, a first match or none, always applies. *)
Theorem remove_excises_first_match
  {R R2 World : Type} (m : @Machine R R2 World)
  (cb : Callback) (c : option Context) :
  (forall l1 s l2,
      slots m = l1 ++ s :: l2 ->
      (forall x, In x l1 -> matches cb (optional c) x = false) ->
      matches cb (optional c) s = true ->
      remove cb c m = (true, with_slots m (l1 ++ l2))) /\
  ((forall x, In x (slots m) -> matches cb (optional c) x = false) ->
   remove cb c m = (false, m)) /\
  (forall l1 s1 l2 s2 l3,
      slots m = l1 ++ s1 :: l2 ++ s2 :: l3 ->
      (forall x, In x (l1 ++ l2) -> matches cb (optional c) x = false) ->
      matches cb (optional c) s1 = true ->
      matches cb (optional c) s2 = true ->
      remove cb c (snd (remove cb c m)) =
      (true, with_slots m (l1 ++ l2 ++ l3))) /\
  ((exists l1 s l2,
       slots m = l1 ++ s :: l2 /\
       (forall x, In x l1 -> matches cb (optional c) x = false) /\
       matches cb (optional c) s = true) \/
   (forall x, In x (slots m) -> matches cb (optional c) x = false)).
Proof.
  assert (Hfirst : forall l1 s l2,
             slots m = l1 ++ s :: l2 ->
             (forall x, In x l1 -> matches cb (optional c) x = false) ->
             matches cb (optional c) s = true ->
             remove cb c m = (true, with_slots m (l1 ++ l2))).
  { intros l1 s l2 Hm Hl1 Hs. rewrite remove_as_remove_first, Hm.
    rewrite remove_first_app by assumption.
    rewrite existsb_app. simpl. rewrite Hs, orb_true_r. reflexivity. }
  split; [exact Hfirst|]. split; [|split].
  - intros Hnone. rewrite remove_as_remove_first.
    rewrite remove_first_absent, existsb_absent by exact Hnone.
    rewrite with_slots_same. reflexivity.
  - intros l1 s1 l2 s2 l3 Hm Hl12 Hs1 Hs2.
    rewrite (Hfirst l1 s1 (l2 ++ s2 :: l3) Hm) by
      (try assumption; intros x Hx; apply Hl12, in_or_app; left; exact Hx).
    simpl snd. rewrite remove_as_remove_first, slots_with_slots.
    rewrite app_assoc, remove_first_app by assumption.
    rewrite existsb_app. simpl. rewrite Hs2, orb_true_r.
    rewrite <- (app_assoc l1 l2 l3). reflexivity.
  - apply first_match_or_none.
Qed.

Lemma remove_excises_first_match_witness :
  remove 2 (Some (Value 7)) Scenario.thrice =
  (true, with_slots Scenario.thrice
           ([] ++ [mkSlot 1 2 (Value 7); mkSlot 2 2 (Value 7)])) /\
  remove 9 None Scenario.thrice = (false, Scenario.thrice) /\
  remove 2 (Some (Value 7))
    (snd (remove 2 (Some (Value 7)) Scenario.thrice)) =
  (true, with_slots Scenario.thrice ([] ++ [] ++ [mkSlot 2 2 (Value 7)])).
Proof.
  split; [|split].
  - apply (proj1 (remove_excises_first_match Scenario.thrice 2
                    (Some (Value 7))) [] (mkSlot 0 2 (Value 7)));
      [reflexivity|intros x []|reflexivity].
  - apply (proj1 (proj2 (remove_excises_first_match Scenario.thrice 9 None))).
    intros x [<-|[<-|[<-|[]]]]; reflexivity.
  - apply (proj1 (proj2 (proj2 (remove_excises_first_match Scenario.thrice 2
                                  (Some (Value 7)))))
             [] (mkSlot 0 2 (Value 7)) [] (mkSlot 1 2 (Value 7)));
      [reflexivity|intros x []|reflexivity|reflexivity].
Defined.

(** C6, amended.  In a reachable state removal never fails and repeats
    harmlessly: [add] followed at once by [remove()] of the slot it
    returned leaves [slots] as it was before the [add]; a second
    [remove()] of the same slot changes nothing; and [remove(callback,
    context)] changes nothing and returns [false] when no registered slot
    matches the pair.  Every one of these calls returns: the functions are
    total and have no exceptional result. *)
Theorem removal_is_idempotent
  {R R2 World : Type} (m : @Machine R R2 World) :
  reachable m ->
  (forall cb c,
      slots (slot_remove (fst (add cb c m)) (snd (add cb c m))) = slots m) /\
  (forall slot,
      slot_remove slot (slot_remove slot m) = slot_remove slot m) /\
  (forall cb c,
      (forall x, In x (slots m) -> matches cb (optional c) x = false) ->
      remove cb c m = (false, m)).
Proof.
  intros Hreach. split; [|split].
  - intros cb c.
    pose proof (reachable_well_formed _ (reach_add m cb c Hreach)) as [Hnd _].
    unfold slot_remove. rewrite removeSlot_as_remove_first, slots_with_slots.
    rewrite slots_add in Hnd |- *.
    rewrite (remove_first_same_slot (slots m) _ []) by exact Hnd.
    apply app_nil_r.
  - intros slot.
    destruct (reachable_well_formed _ Hreach) as [Hnd _].
    unfold slot_remove.
    rewrite (removeSlot_as_remove_first (removeSlot slot m)).
    rewrite remove_first_absent, with_slots_same; [reflexivity|].
    rewrite removeSlot_as_remove_first, slots_with_slots.
    apply remove_first_same_slot_absent. exact Hnd.
  - intros cb c Hnone. rewrite remove_as_remove_first.
    rewrite remove_first_absent, existsb_absent by exact Hnone.
    rewrite with_slots_same. reflexivity.
Qed.

Lemma removal_is_idempotent_witness :
  slots (slot_remove (fst (add 2 None Scenario.twice))
                     (snd (add 2 None Scenario.twice))) =
  slots Scenario.twice /\
  slot_remove (Scenario.slot1 2) (slot_remove (Scenario.slot1 2) Scenario.twice)
  = slot_remove (Scenario.slot1 2) Scenario.twice /\
  remove 9 None Scenario.twice = (false, Scenario.twice).
Proof.
  destruct (removal_is_idempotent Scenario.twice
              (reachable_perform_all _ _ (reach_new _ _))) as (Ha & Hb & Hc).
  split; [apply Ha|split; [apply Hb|apply Hc]].
  intros x [<-|[<-|[]]]; reflexivity.
Defined.

(** C6 as stated fails when the pair is registered more than once: with
    callback 2 registered twice, the second slot is removed through its
    own [remove()]; removing that slot again by value then excises the
    first slot. *)
Lemma removing_removed_slot_by_value_takes_duplicate :
  ~ (forall (m : @Machine nat (list nat) unit) (slot : SignalSlot),
        reachable m ->
        In slot (slots m) ->
        snd (remove (callback slot) (Some (context slot))
               (slot_remove slot m)) =
        slot_remove slot m).
Proof.
  intros H.
  specialize (H Scenario.twice (Scenario.slot1 2)
                (reachable_perform_all _ _ (reach_new _ _))
                (or_intror (or_introl eq_refl))).
  apply (f_equal slots) in H. vm_compute in H. discriminate H.
Qed.

(** C10.  The [remove()] of a slot excises that very slot object, wherever
    it stands in the sequence and whatever the slots before it are: slots
    with the same callback and context, before or after it, all stay. *)
Theorem slot_remove_excises_own_slot
  {R R2 World : Type} (m : @Machine R R2 World)
  (l1 : list SignalSlot) (slot : SignalSlot) (l2 : list SignalSlot) :
  reachable m ->
  slots m = l1 ++ slot :: l2 ->
  slot_remove slot m = with_slots m (l1 ++ l2).
Proof.
  intros Hreach Hm.
  destruct (reachable_well_formed _ Hreach) as [Hnd _].
  unfold slot_remove. rewrite removeSlot_as_remove_first.
  rewrite Hm in Hnd |- *.
  rewrite remove_first_same_slot by exact Hnd. reflexivity.
Qed.

Lemma slot_remove_excises_own_slot_witness :
  slot_remove (mkSlot 1 2 (Value 7)) Scenario.thrice =
  with_slots Scenario.thrice
    ([mkSlot 0 2 (Value 7)] ++ [mkSlot 2 2 (Value 7)]).
Proof.
  apply (slot_remove_excises_own_slot Scenario.thrice
           [mkSlot 0 2 (Value 7)] (mkSlot 1 2 (Value 7))
           [mkSlot 2 2 (Value 7)]
           (reachable_perform_all _ _ (reach_new _ _))).
  reflexivity.
Defined.

(** ** Emit *)

Section EmitFacts.
Context {Args R R2 Exn World : Type}.
Variable code : Callback -> Context -> Args -> @Listener R Exn World.
Implicit Types (m : @Machine R R2 World) (l : list SignalSlot).
Implicit Types (log : list (@Invocation R R2 Exn World)).

(** Client code does not reach the arrays allocated by [slice]. *)
Lemma run_copies (body : @Listener R Exn World) m :
  copies (snd (run body m)) = copies m.
Proof.
  revert m. induction body as [v|e|cb c k IH|cb c k IH|cb c k IH|k IH
                              |slot k IH|k IH|w k IH]; intros m; simpl;
    try reflexivity; try (rewrite IH; reflexivity).
  - unfold remove.
    destruct (0 <=? findIndex (matches cb (optional c)) (slots m))%Z;
      rewrite IH; reflexivity.
  - rewrite IH. unfold slot_remove, removeSlot.
    destruct (0 <=? indexOf same_slot (slots m) slot)%Z; reflexivity.
Qed.

Lemma apply_callback_copies slot (args : Args) m c m1 :
  apply_callback code slot args m = (c, m1) -> copies m1 = copies m.
Proof.
  unfold apply_callback. intros H.
  rewrite <- (run_copies (code (callback slot) (context slot) args) m), H.
  reflexivity.
Qed.

Lemma skipn_cons_nth {A : Type} (xs : list A) k x :
  nth_error xs k = Some x -> skipn k xs = x :: skipn (S k) xs.
Proof.
  revert k. induction xs as [|y xs IH]; intros [|k]; simpl; try discriminate.
  - intros [= ->]. reflexivity.
  - apply IH.
Qed.

(** Over an array made by [slice], the loop of [map] visits the elements
    the array had when it was made. *)
Lemma map_from_copy a l k count (args : Args) m :
  nth_error (copies m) a = Some l ->
  k + count = length l ->
  map_from code (Copy a) k count args m = visit code (skipn k l) args m.
Proof.
  revert k m. induction count as [|count IH]; intros k m Ha Hk.
  - replace k with (length l) by lia. rewrite skipn_all. reflexivity.
  - destruct (nth_error l k) as [x|] eqn:Hx;
      [|apply nth_error_None in Hx; lia].
    rewrite (skipn_cons_nth _ _ _ Hx). cbn [map_from visit read].
    rewrite (nth_error_nth _ _ [] Ha), Hx.
    destruct (apply_callback code x args m) as [[v|e] m1] eqn:E;
      [|reflexivity].
    rewrite IH; [reflexivity| |lia].
    rewrite (apply_callback_copies _ _ _ _ _ E). exact Ha.
Qed.

(** The loop of [forEach] visits them in the same way and keeps no value. *)
Lemma forEach_from_copy a l k count (args : Args) m :
  nth_error (copies m) a = Some l ->
  k + count = length l ->
  forEach_from code (Copy a) k count args m =
  let '(c, m1, log) := visit code (skipn k l) args m in
  (match c with Normal _ => Normal tt | Thrown e => Thrown e end, m1, log).
Proof.
  revert k m. induction count as [|count IH]; intros k m Ha Hk.
  - replace k with (length l) by lia. rewrite skipn_all. reflexivity.
  - destruct (nth_error l k) as [x|] eqn:Hx;
      [|apply nth_error_None in Hx; lia].
    rewrite (skipn_cons_nth _ _ _ Hx). cbn [forEach_from visit read].
    rewrite (nth_error_nth _ _ [] Ha), Hx.
    destruct (apply_callback code x args m) as [[v|e] m1] eqn:E;
      [|reflexivity].
    rewrite IH; [| |lia].
    + destruct (visit code (skipn (S k) l) args m1) as [[[items|e] m2] log];
        reflexivity.
    + rewrite (apply_callback_copies _ _ _ _ _ E). exact Ha.
Qed.

(** [emit] visits the slots registered when it begins: both of its
    branches apply the callbacks of the copy in the same way and differ in
    what is done with the values. *)
Lemma emit_as_visit (args : Args) m :
  emit code args m =
  let '(c, m1, log) := visit code (slots m) args (snd (slice ThisSlots m)) in
  match c with
  | Normal items =>
      match aggregator (signal m) with
      | Some agg => mkEmission (Normal (Some (agg items))) m1 log [items]
      | None => mkEmission (Normal None) m1 log []
      end
  | Thrown e => mkEmission (Thrown e) m1 log []
  end.
Proof.
  unfold emit, slice, forEach_apply, map_apply. cbn [signal snd].
  set (m0 := mkMachine (signal m) (copies m ++ [read ThisSlots m])
                       (next_address m) (world m)).
  assert (Ha : nth_error (copies m0) (length (copies m)) = Some (slots m)).
  { unfold m0. cbn [copies]. rewrite nth_error_app2, Nat.sub_diag by lia.
    reflexivity. }
  rewrite (nth_error_nth _ _ [] Ha : read (Copy (length (copies m))) m0 = _).
  destruct (aggregator (signal m)) as [agg|].
  - rewrite (map_from_copy _ _ 0 _ args m0 Ha eq_refl). simpl skipn.
    destruct (visit code (slots m) args m0) as [[[items|e] m1] log];
      reflexivity.
  - rewrite (forEach_from_copy _ _ 0 _ args m0 Ha eq_refl). simpl skipn.
    destruct (visit code (slots m) args m0) as [[[items|e] m1] log];
      reflexivity.
Qed.

(** A visit that completes has applied every slot, in order. *)
Lemma visit_normal l (args : Args) m items m1 log :
  visit code l args m = (Normal items, m1, log) ->
  map listener log = l /\
  map completion log = map Normal items /\
  length items = length l.
Proof.
  revert m items log. induction l as [|slot rest IH]; intros m items log; simpl.
  - intros [= <- <- <-]. repeat split.
  - destruct (apply_callback code slot args m) as [[v|e] m2]; [|discriminate].
    destruct (visit code rest args m2) as [[[items'|e] m3] log'] eqn:E;
      [|discriminate].
    intros [= <- <- <-]. destruct (IH _ _ _ E) as (H1 & H2 & H3).
    simpl. rewrite H1, H2, H3. repeat split.
Qed.

(** A visit that throws has applied the slots up to the one that threw,
    which is the last entry of its log. *)
Lemma visit_thrown l (args : Args) m e m1 log :
  visit code l args m = (Thrown e, m1, log) ->
  exists log' i,
    log = log' ++ [i] /\ completion i = Thrown e /\
    (forall j, In j log' -> exists v, completion j = Normal v).
Proof.
  revert m log. induction l as [|slot rest IH]; intros m log; simpl.
  - discriminate.
  - destruct (apply_callback code slot args m) as [[v|e'] m2].
    + destruct (visit code rest args m2) as [[[items'|e'] m3] log'] eqn:E;
        [discriminate|].
      intros [= <- <- <-]. destruct (IH _ _ E) as (log0 & i & -> & Hi & Hlog0).
      exists (mkInvocation slot m (Normal v) m2 :: log0), i.
      repeat split; [exact Hi|].
      intros j [<-|Hj]; [exists v; reflexivity|apply Hlog0; exact Hj].
    + intros [= <- <- <-].
      exists [], (mkInvocation slot m (Thrown e') m2).
      repeat split. intros j [].
Qed.

(** The slots a visit applies are an initial segment of its list. *)
Lemma visit_prefix l (args : Args) m :
  map listener (snd (visit code l args m)) =
  firstn (length (snd (visit code l args m))) l.
Proof.
  revert m. induction l as [|slot rest IH]; intros m; simpl.
  - reflexivity.
  - destruct (apply_callback code slot args m) as [[v|e] m1].
    + specialize (IH m1).
      destruct (visit code rest args m1) as [[c m2] log]. simpl in *.
      rewrite IH. reflexivity.
    + reflexivity.
Qed.

(** Every entry of the log is the application of a callback. *)
Lemma visit_log_sound l (args : Args) m i :
  In i (snd (visit code l args m)) ->
  apply_callback code (listener i) args (state_before i) =
  (completion i, state_after i).
Proof.
  revert m. induction l as [|slot rest IH]; intros m; simpl.
  - intros [].
  - destruct (apply_callback code slot args m) as [[v|e] m1] eqn:E.
    + specialize (IH m1).
      destruct (visit code rest args m1) as [[c m2] log]. simpl in *.
      intros [<-|H]; [exact E|apply IH; exact H].
    + intros [<-|[]]. exact E.
Qed.

(** Each callback is applied in the state the one before it left. *)
Lemma visit_log_chain l (args : Args) m :
  (forall i, nth_error (snd (visit code l args m)) 0 = Some i ->
             state_before i = m) /\
  (forall k i j,
      nth_error (snd (visit code l args m)) k = Some i ->
      nth_error (snd (visit code l args m)) (S k) = Some j ->
      state_before j = state_after i).
Proof.
  revert m. induction l as [|slot rest IH]; intros m; simpl.
  - split; [intros i H|intros [|k] i j H]; discriminate H.
  - destruct (apply_callback code slot args m) as [[v|e] m1] eqn:E.
    + destruct (IH m1) as [Hfirst Hnext].
      destruct (visit code rest args m1) as [[c m2] log]. simpl in *.
      split.
      * intros i [= <-]. reflexivity.
      * intros [|k] i j Hi Hj; simpl in *.
        -- injection Hi as <-. simpl. apply Hfirst. exact Hj.
        -- apply (Hnext k i j Hi Hj).
    + simpl. split.
      * intros i [= <-]. reflexivity.
      * intros k i j _ Hj. destruct k; simpl in Hj; discriminate Hj.
Qed.

Lemma invoked_emit (args : Args) m :
  invoked (emit code args m) =
  snd (visit code (slots m) args (snd (slice ThisSlots m))).
Proof.
  rewrite emit_as_visit.
  destruct (visit code (slots m) args (snd (slice ThisSlots m)))
    as [[[items|e] m1] log];
    [destruct (aggregator (signal m))|]; reflexivity.
Qed.

(** X15.  The listeners of one [emit] call run one after the other on the
    registry as it is: every entry of the log is the application of the
    slot's callback to the slot's context and the arguments of [emit], the
    first in the state [slice] left, each of the others in the state the
    one before it left, so that a listener sees what the listeners before
    it added and removed. *)
Lemma emit_log_sound (args : Args) m :
  (forall i, In i (invoked (emit code args m)) ->
             apply_callback code (listener i) args (state_before i) =
             (completion i, state_after i)) /\
  (forall i, nth_error (invoked (emit code args m)) 0 = Some i ->
             state_before i = snd (slice ThisSlots m)) /\
  (forall k i j,
      nth_error (invoked (emit code args m)) k = Some i ->
      nth_error (invoked (emit code args m)) (S k) = Some j ->
      state_before j = state_after i).
Proof.
  rewrite invoked_emit. split; [|apply visit_log_chain].
  intros i. apply visit_log_sound.
Qed.

(** The slots an [emit] applies are an initial segment of the snapshot. *)
Lemma emit_invokes_prefix (args : Args) m :
  invoked_slots (emit code args m) =
  firstn (length (invoked (emit code args m))) (slots m).
Proof.
  unfold invoked_slots. rewrite invoked_emit. apply visit_prefix.
Qed.

(** When no callback throws, they are the whole snapshot. *)
Lemma emit_invokes_all (args : Args) m :
  (forall i e, In i (invoked (emit code args m)) -> completion i <> Thrown e) ->
  invoked_slots (emit code args m) = slots m.
Proof.
  unfold invoked_slots. rewrite invoked_emit. intros H.
  destruct (visit code (slots m) args (snd (slice ThisSlots m)))
    as [[[items|e] m1] log] eqn:E; simpl in *.
  - destruct (visit_normal _ _ _ _ _ _ E) as (Hl & _). exact Hl.
  - destruct (visit_thrown _ _ _ _ _ _ E) as (log' & i & -> & Hi & _).
    exfalso. apply (H i e); [|exact Hi].
    apply in_or_app. right. left. reflexivity.
Qed.

(** When the entry at position [k] is a throw, the call ends there. *)
Lemma emit_thrown_at (args : Args) m k i e :
  nth_error (invoked (emit code args m)) k = Some i ->
  completion i = Thrown e ->
  outcome (emit code args m) = Thrown e /\
  length (invoked (emit code args m)) = S k /\
  aggregated (emit code args m) = [].
Proof.
  rewrite emit_as_visit.
  destruct (visit code (slots m) args (snd (slice ThisSlots m)))
    as [[[items|e'] m1] log] eqn:E.
  - intros Hk Hi. exfalso.
    destruct (visit_normal _ _ _ _ _ _ E) as (_ & Hc & _).
    assert (Hlog : nth_error log k = Some i)
      by (destruct (aggregator (signal m)); exact Hk).
    apply (map_nth_error completion) in Hlog. rewrite Hc, Hi in Hlog.
    apply nth_error_In, in_map_iff in Hlog.
    destruct Hlog as (v & Hv & _). discriminate Hv.
  - cbn [invoked outcome aggregated]. intros Hk Hi.
    destruct (visit_thrown _ _ _ _ _ _ E) as (log' & j & -> & Hj & Hlog').
    assert (Hlen : k = length log').
    { destruct (Nat.lt_trichotomy k (length log')) as [Hlt|[Heq|Hgt]].
      - rewrite nth_error_app1 in Hk by exact Hlt.
        apply nth_error_In, Hlog' in Hk. destruct Hk as [v Hv].
        rewrite Hv in Hi. discriminate Hi.
      - exact Heq.
      - assert (Hsome : nth_error (log' ++ [j]) k <> None)
          by (rewrite Hk; discriminate).
        apply nth_error_Some in Hsome.
        rewrite length_app in Hsome. simpl in Hsome. lia. }
    subst k. rewrite nth_error_app2, Nat.sub_diag in Hk by lia.
    injection Hk as <-. rewrite Hj in Hi. injection Hi as <-.
    rewrite length_app. simpl. repeat split. lia.
Qed.

(** Client code stays within the reachable states. *)
Lemma run_reachable (body : @Listener R Exn World) m :
  reachable m -> reachable (snd (run body m)).
Proof.
  revert m. induction body as [v|e|cb c k IH|cb c k IH|cb c k IH|k IH
                              |slot k IH|k IH|w k IH]; intros m H; simpl.
  - exact H.
  - exact H.
  - apply IH. apply (reach_add m cb c H).
  - destruct (remove cb c m) as [found m1] eqn:E.
    apply IH. replace m1 with (snd (remove cb c m)) by (rewrite E; reflexivity).
    apply reach_remove. exact H.
  - apply IH. exact H.
  - apply IH. exact H.
  - apply IH. apply reach_slot_remove. exact H.
  - apply IH. exact H.
  - apply IH. apply reach_world. exact H.
Qed.

Lemma visit_reachable l (args : Args) m :
  reachable m -> reachable (snd (fst (visit code l args m))).
Proof.
  revert m. induction l as [|slot l IH]; intros m H; simpl.
  - exact H.
  - pose proof (run_reachable (code (callback slot) (context slot) args) m H)
      as H1.
    unfold apply_callback.
    destruct (run (code (callback slot) (context slot) args) m) as [[v|e] m1].
    + specialize (IH m1 H1).
      destruct (visit code l args m1) as [[c m2] log]. exact IH.
    + exact H1.
Qed.

Lemma emit_reachable (args : Args) m :
  reachable m -> reachable (after (emit code args m)).
Proof.
  intros H. rewrite emit_as_visit.
  pose proof (visit_reachable (slots m) args _ (reach_slice m ThisSlots H))
    as H1.
  destruct (visit code (slots m) args (snd (slice ThisSlots m)))
    as [[[items|e] m1] log];
    [destruct (aggregator (signal m))|]; exact H1.
Qed.
End EmitFacts.

Section EmitClaims.
Context {Args R R2 Exn World : Type}.
Variable code : Callback -> Context -> Args -> @Listener R Exn World.
Implicit Types (m : @Machine R R2 World).

Lemma in_firstn {A : Type} (x : A) n l : In x (firstn n l) -> In x l.
Proof.
  intros H. rewrite <- (firstn_skipn n l). apply in_or_app. left. exact H.
Qed.

Lemma in_skipn_of_not_firstn {A : Type} (x : A) n l :
  In x l -> ~ In x (firstn n l) -> In x (skipn n l).
Proof.
  intros H Hfirst. rewrite <- (firstn_skipn n l) in H.
  apply in_app_or in H. destruct H as [H|H]; [destruct (Hfirst H)|exact H].
Qed.

(** C1, amended.  An [emit] call applies only slots of the snapshot (a slot
    that is not registered when [emit] begins, so any slot added during the
    call, is not invoked), and when no listener throws it applies exactly
    the slots registered when it began, in their order, whatever the
    listeners add or remove meanwhile. *)
Theorem emit_invokes_snapshot (args : Args) m :
  (forall s, ~ In s (slots m) -> ~ In s (invoked_slots (emit code args m))) /\
  ((forall i e, In i (invoked (emit code args m)) -> completion i <> Thrown e) ->
   invoked_slots (emit code args m) = slots m).
Proof.
  split.
  - intros s Hs Hin. apply Hs. rewrite emit_invokes_prefix in Hin.
    apply in_firstn in Hin. exact Hin.
  - apply emit_invokes_all.
Qed.

(** C2, amended.  A slot that was registered when [emit] began and that a
    listener removes before its turn is invoked later in the same call all
    the same (when no listener throws): the call works on the snapshot.
    Entry [k] of the log is the listener that removes [victim]: the slot is
    registered in the state the listener starts in and no longer in the
    state it leaves, and it is not among the first [k + 1] slots invoked. *)
Theorem removed_slot_is_still_invoked (args : Args) m k i victim :
  nth_error (invoked (emit code args m)) k = Some i ->
  In victim (slots m) ->
  ~ In victim (firstn (S k) (invoked_slots (emit code args m))) ->
  In victim (slots (state_before i)) ->
  ~ In victim (slots (state_after i)) ->
  (forall j e, In j (invoked (emit code args m)) -> completion j <> Thrown e) ->
  In victim (skipn (S k) (invoked_slots (emit code args m))).
Proof.
  intros _ Hvictim Hnotyet _ _ Hquiet.
  apply in_skipn_of_not_firstn; [|exact Hnotyet].
  rewrite (emit_invokes_all code args m Hquiet). exact Hvictim.
Qed.

(** C8.  When the listener invoked at position [k] throws [e], [emit] ends
    by throwing [e]: the slots it has applied are the first [k + 1] slots
    of the snapshot and no other, and the aggregator has not been
    called. *)
Theorem throwing_listener_aborts_emit (args : Args) m k i e :
  nth_error (invoked (emit code args m)) k = Some i ->
  completion i = Thrown e ->
  outcome (emit code args m) = Thrown e /\
  invoked_slots (emit code args m) = firstn (S k) (slots m) /\
  length (invoked (emit code args m)) = S k /\
  aggregated (emit code args m) = [].
Proof.
  intros Hk Hi.
  destruct (emit_thrown_at code args m k i e Hk Hi) as (Hout & Hlen & Hagg).
  repeat split; try assumption.
  rewrite emit_invokes_prefix, Hlen. reflexivity.
Qed.
End EmitClaims.

Section ArrayAggregator.
Context {Args R Exn World : Type}.
Variable code : Callback -> Context -> Args -> @Listener R Exn World.
Implicit Types (m : @Machine R (list R) World).

Lemma run_passive (body : @Listener R Exn World) m :
  passive body -> exists v w, run body m = (Normal v, with_world m w).
Proof.
  intros H. revert m.
  induction H as [v|cb c k _ IH|k _ IH|k _ IH|w k _ IH]; intros m; simpl.
  - exists v, (world m). destruct m. reflexivity.
  - apply IH.
  - apply IH.
  - apply IH.
  - destruct (IH (with_world m w)) as (v & w' & E).
    exists v, w'. exact E.
Qed.

Lemma visit_passive l (args : Args) m :
  (forall s, In s l -> passive (code (callback s) (context s) args)) ->
  exists items w log,
    visit code l args m = (Normal items, with_world m w, log).
Proof.
  revert m. induction l as [|slot l IH]; intros m H; simpl.
  - exists [], (world m), []. destruct m. reflexivity.
  - unfold apply_callback.
    destruct (run_passive _ m (H slot (or_introl eq_refl))) as (v & w & ->).
    destruct (IH (with_world m w)) as (items & w' & log & E).
    { intros s Hs. apply H. right. exact Hs. }
    rewrite E. eexists (v :: items), w', _. reflexivity.
Qed.

(** C7.  With the aggregator [ARRAY] and listeners that neither throw nor
    change the registry, [emit] returns one value per registered slot, the
    i-th being what the listener of the i-th slot returned, and the
    aggregator is called once, with that list. *)
Theorem ARRAY_returns_every_result (args : Args) m :
  aggregator (signal m) = Some ARRAY ->
  (forall s, In s (slots m) -> passive (code (callback s) (context s) args)) ->
  exists items,
    outcome (emit code args m) = Normal (Some items) /\
    length items = length (slots m) /\
    invoked_slots (emit code args m) = slots m /\
    map completion (invoked (emit code args m)) = map Normal items /\
    aggregated (emit code args m) = [items] /\
    slots (after (emit code args m)) = slots m.
Proof.
  intros Hagg Hpassive.
  destruct (visit_passive (slots m) args (snd (slice ThisSlots m)) Hpassive)
    as (items & w & log & E).
  destruct (visit_normal code _ _ _ _ _ _ E) as (Hl & Hc & Hlen).
  exists items. unfold invoked_slots. rewrite emit_as_visit, E, Hagg.
  cbn [outcome invoked aggregated after].
  repeat split; assumption.
Qed.
End ArrayAggregator.

(** ** The emit claims on the scenarios *)

(** What the copy is for: the loop of [emit], run over the array of the
    field itself, would pass over the slot of callback 2, removed by
    callback 1, and would apply the slot that callback 1 added. *)
Lemma loop_over_the_field_sees_updates :
  map listener
      (snd (forEach_apply Scenario.code ThisSlots tt Scenario.mutating)) =
  [Scenario.slot0 1; mkSlot 2 9 Undefined].
Proof. reflexivity. Qed.

Lemma emit_invokes_snapshot_witness :
  invoked_slots (emit Scenario.code tt Scenario.mutating) =
  slots Scenario.mutating.
Proof.
  apply (proj2 (emit_invokes_snapshot Scenario.code tt Scenario.mutating)).
  intros i e H. vm_compute in H.
  destruct H as [<-|[<-|[]]]; discriminate.
Defined.

(** C1 as stated fails when a listener throws: with callbacks 1, 3 and 2
    registered, callback 3 throws and the slot of callback 2, registered
    when [emit] began, is not invoked. *)
Lemma throwing_listener_cuts_emit_short :
  In (Scenario.slot2 2) (slots Scenario.throwing) /\
  ~ In (Scenario.slot2 2)
       (invoked_slots (emit Scenario.code tt Scenario.throwing)) /\
  invoked_slots (emit Scenario.code tt Scenario.throwing) <>
  slots Scenario.throwing.
Proof.
  vm_compute. split; [|split].
  - right. right. left. reflexivity.
  - intros [H|[H|[]]]; discriminate H.
  - discriminate.
Qed.

Lemma removed_slot_is_still_invoked_witness :
  In (Scenario.slot1 2)
     (skipn 1 (invoked_slots (emit Scenario.code tt Scenario.mutating))).
Proof.
  eapply (removed_slot_is_still_invoked Scenario.code tt Scenario.mutating 0).
  - reflexivity.
  - right. left. reflexivity.
  - vm_compute. intros [H|[]]. discriminate H.
  - right. left. reflexivity.
  - vm_compute. intros [H|[H|[]]]; discriminate H.
  - intros j e H. vm_compute in H.
    destruct H as [<-|[<-|[]]]; discriminate.
Defined.

(** C2 as stated fails: with callbacks 1 and 2 registered, the listener of
    callback 1 removes the slot of callback 2 before its turn, and [emit]
    invokes that slot nevertheless. *)
Lemma removed_slot_is_not_skipped :
  ~ (forall (m : @Machine nat (list nat) unit) k i victim,
        nth_error (invoked (emit Scenario.code tt m)) k = Some i ->
        ~ In victim (firstn (S k) (invoked_slots (emit Scenario.code tt m))) ->
        In victim (slots (state_before i)) ->
        ~ In victim (slots (state_after i)) ->
        ~ In victim (invoked_slots (emit Scenario.code tt m))).
Proof.
  intros H.
  eapply (H Scenario.mutating 0 _ (Scenario.slot1 2)).
  - reflexivity.
  - vm_compute. intros [H1|[]]. discriminate H1.
  - right. left. reflexivity.
  - vm_compute. intros [H1|[H1|[]]]; discriminate H1.
  - right. left. reflexivity.
Qed.

Lemma ARRAY_returns_every_result_witness :
  exists items,
    outcome (emit Scenario.code tt Scenario.quiet) = Normal (Some items) /\
    length items = length (slots Scenario.quiet) /\
    invoked_slots (emit Scenario.code tt Scenario.quiet) =
    slots Scenario.quiet /\
    map completion (invoked (emit Scenario.code tt Scenario.quiet)) =
    map Normal items /\
    aggregated (emit Scenario.code tt Scenario.quiet) = [items] /\
    slots (after (emit Scenario.code tt Scenario.quiet)) =
    slots Scenario.quiet.
Proof.
  apply (ARRAY_returns_every_result Scenario.code tt Scenario.quiet).
  - reflexivity.
  - intros s [<-|[<-|[]]]; simpl.
    + apply passive_Return.
    + apply passive_CallHas. intros b. apply passive_Return.
Defined.

Lemma throwing_listener_aborts_emit_witness :
  outcome (emit Scenario.code tt Scenario.throwing) = Thrown 99 /\
  invoked_slots (emit Scenario.code tt Scenario.throwing) =
  firstn 2 (slots Scenario.throwing) /\
  length (invoked (emit Scenario.code tt Scenario.throwing)) = 2 /\
  aggregated (emit Scenario.code tt Scenario.throwing) = [].
Proof.
  eapply (throwing_listener_aborts_emit Scenario.code tt Scenario.throwing 1).
  - reflexivity.
  - reflexivity.
Defined.

(** ** The aggregators over promises *)

Section PromiseFacts.
Context {Exn T : Type}.
Implicit Types (items : list (@Promise Exn T)) (st : @AllState Exn T).
Implicit Types (job : @Job Exn T) (vals : list (option T)).

Lemma length_set_nth {A : Type} i (x : A) l :
  length (set_nth i x l) = length l.
Proof.
  revert i. induction l as [|y l IH]; intros [|i]; simpl; try reflexivity.
  rewrite IH. reflexivity.
Qed.

Lemma nth_error_set_nth {A : Type} i j (x : A) l :
  nth_error (set_nth i x l) j =
  if (i =? j) && (i <? length l) then Some x else nth_error l j.
Proof.
  revert i j. induction l as [|y l IH]; intros [|i] [|j]; simpl;
    try reflexivity.
  - destruct (i =? j); reflexivity.
  - rewrite IH. reflexivity.
Qed.

Lemma count_none_set_nth vals i v :
  nth_error vals i = Some None ->
  S (count_none (set_nth i (Some v) vals)) = count_none vals.
Proof.
  revert i. induction vals as [|[w|] vals IH]; intros [|i]; simpl;
    try discriminate.
  - apply IH.
  - reflexivity.
  - intros H. rewrite (IH i H). reflexivity.
Qed.

Lemma count_none_zero vals :
  count_none vals = 0 -> vals = map Some (collected vals).
Proof.
  induction vals as [|[w|] vals IH]; simpl.
  - reflexivity.
  - intros H. rewrite <- (IH H). reflexivity.
  - discriminate.
Qed.

Lemma count_none_all_set vals :
  (forall i, i < length vals -> exists v, nth_error vals i = Some (Some v)) ->
  count_none vals = 0.
Proof.
  induction vals as [|[w|] vals IH]; simpl; intros H.
  - reflexivity.
  - apply IH. intros i Hi. apply (H (S i)). lia.
  - destruct (H 0) as [v Hv]; [lia|discriminate].
Qed.

Lemma count_none_repeat n : count_none (repeat (@None T) n) = n.
Proof. induction n as [|n IH]; simpl; [|rewrite IH]; reflexivity. Qed.

Lemma nth_error_repeat_None n i (o : option T) :
  nth_error (repeat None n) i = Some o -> o = None.
Proof.
  intros H. apply nth_error_In in H. apply repeat_spec in H. exact H.
Qed.

Lemma result_settle t s st :
  result (settle t s st) =
  match result st with None => Some (t, s) | Some x => Some x end.
Proof.
  unfold settle. destruct (result st) eqn:E; simpl; [exact E|reflexivity].
Qed.

Lemma values_settle t s st : values (settle t s st) = values st.
Proof. unfold settle. destruct (result st); reflexivity. Qed.

Lemma remaining_settle t s st : remaining (settle t s st) = remaining st.
Proof. unfold settle. destruct (result st); reflexivity. Qed.

(** The invariant holds when [Promise.all] returns. *)
Lemma all_invariant_start items : all_invariant items (all_start (length items)).
Proof.
  unfold all_start. replace (1 + length items - 1) with (length items) by lia.
  destruct items as [|p items].
  - simpl. repeat split; try reflexivity.
    intros [|i] v H; discriminate H.
  - change (length (p :: items) =? 0) with false. cbv iota.
    unfold all_invariant. cbn [values remaining result].
    rewrite repeat_length, count_none_repeat.
    repeat split; try reflexivity.
    + intros i v H. apply nth_error_repeat_None in H. discriminate H.
    + simpl. lia.
Qed.

(** A job keeps the invariant. *)
Lemma all_invariant_react items st job :
  all_invariant items st -> valid_job items job ->
  all_invariant items (react st job).
Proof.
  intros (Hlen & Hcount & Hvals & Hres) Hjob.
  destruct job as [[t i] [v|e]]; unfold valid_job in Hjob; simpl in Hjob;
    unfold react.
  - unfold resolve_element.
    destruct (nth_error (values st) i) as [[w|]|] eqn:Hi;
      try (repeat split; assumption).
    pose proof (count_none_set_nth _ _ v Hi) as Hset.
    assert (Hvals' : forall j u,
               nth_error (set_nth i (Some v) (values st)) j = Some (Some u) ->
               exists t', nth_error items j = Some (Some (t', Fulfilled u))).
    { intros j u. rewrite nth_error_set_nth.
      destruct (i =? j) eqn:Hij; simpl.
      - apply Nat.eqb_eq in Hij. subst j.
        destruct (i <? length (values st)).
        + intros [= <-]. exists t. exact Hjob.
        + rewrite Hi. discriminate.
      - apply Hvals. }
    destruct (remaining st - 1 =? 0) eqn:Hzero.
    + apply Nat.eqb_eq in Hzero.
      unfold all_invariant.
      rewrite values_settle, remaining_settle, result_settle.
      cbn [values remaining result].
      rewrite length_set_nth.
      assert (Hnone : count_none (set_nth i (Some v) (values st)) = 0) by lia.
      repeat split; try assumption; try lia.
      destruct (result st) as [[t' [vs|e]]|].
      * rewrite Hres in Hi. rewrite nth_error_map in Hi.
        destruct (nth_error vs i); discriminate Hi.
      * exact Hres.
      * apply count_none_zero. exact Hnone.
    + apply Nat.eqb_neq in Hzero.
      unfold all_invariant. cbn [values remaining result].
      rewrite length_set_nth.
      repeat split; try assumption; try lia.
      destruct (result st) as [[t' [vs|e]]|].
      * rewrite Hres in Hi. rewrite nth_error_map in Hi.
        destruct (nth_error vs i); discriminate Hi.
      * exact Hres.
      * lia.
  - unfold all_invariant.
    rewrite values_settle, remaining_settle, result_settle.
    repeat split; try assumption.
    destruct (result st) as [[t' [vs|e']]|]; try assumption.
    apply nth_error_In in Hjob. exact Hjob.
Qed.

Lemma all_invariant_fold items js st :
  Forall (valid_job items) js -> all_invariant items st ->
  all_invariant items (fold_left react js st).
Proof.
  revert st. induction js as [|job js IH]; intros st Hjs Hst; simpl.
  - exact Hst.
  - inversion Hjs; subst. apply IH; [assumption|].
    apply all_invariant_react; assumption.
Qed.
End PromiseFacts.

Section PromiseAll.
Context {Exn T : Type}.
Implicit Types (items : list (@Promise Exn T)) (st : @AllState Exn T).
Implicit Types (job : @Job Exn T) (js : list (@Job Exn T)).

(** A settled promise stays as it is. *)
Lemma result_react_stable st job x :
  result st = Some x -> result (react st job) = Some x.
Proof.
  intros H. destruct job as [[t i] [v|e]]; unfold react.
  - unfold resolve_element.
    destruct (nth_error (values st) i) as [[w|]|]; try exact H.
    destruct (remaining st - 1 =? 0); [|exact H].
    rewrite result_settle. cbn [result]. rewrite H. reflexivity.
  - rewrite result_settle, H. reflexivity.
Qed.

Lemma result_fold_stable js st x :
  result st = Some x -> result (fold_left react js st) = Some x.
Proof.
  revert st. induction js as [|job js IH]; intros st H; simpl.
  - exact H.
  - apply IH. apply result_react_stable. exact H.
Qed.

Lemma length_values_react st job :
  length (values (react st job)) = length (values st).
Proof.
  destruct job as [[t i] [v|e]]; unfold react.
  - unfold resolve_element.
    destruct (nth_error (values st) i) as [[w|]|]; try reflexivity.
    destruct (remaining st - 1 =? 0);
      rewrite ?values_settle; cbn [values]; apply length_set_nth.
  - rewrite values_settle. reflexivity.
Qed.

(** A value that is set stays set. *)
Lemma value_react_stable st job i v :
  nth_error (values st) i = Some (Some v) ->
  nth_error (values (react st job)) i = Some (Some v).
Proof.
  intros H. destruct job as [[t k] [u|e]]; unfold react.
  - unfold resolve_element.
    destruct (nth_error (values st) k) as [[w|]|] eqn:Hk; try exact H.
    assert (Hset : nth_error (set_nth k (Some u) (values st)) i =
                   Some (Some v)).
    { rewrite nth_error_set_nth. destruct (k =? i) eqn:Hki; [|exact H].
      apply Nat.eqb_eq in Hki. subst k. rewrite H in Hk. discriminate Hk. }
    destruct (remaining st - 1 =? 0);
      rewrite ?values_settle; cbn [values]; exact Hset.
  - rewrite values_settle. exact H.
Qed.

(** The resolve function of element [i] sets value [i]. *)
Lemma fulfil_sets_value st t i v :
  i < length (values st) ->
  exists v', nth_error (values (react st (t, i, Fulfilled v))) i =
             Some (Some v').
Proof.
  intros Hi. unfold react, resolve_element.
  destruct (nth_error (values st) i) as [[w|]|] eqn:E.
  - exists w. exact E.
  - exists v.
    assert (Hset : nth_error (set_nth i (Some v) (values st)) i =
                   Some (Some v)).
    { rewrite nth_error_set_nth, Nat.eqb_refl.
      replace (i <? length (values st)) with true; [reflexivity|].
      symmetry. apply Nat.ltb_lt. exact Hi. }
    destruct (remaining st - 1 =? 0);
      rewrite ?values_settle; cbn [values]; exact Hset.
  - apply nth_error_None in E. lia.
Qed.

Lemma fold_sets_value js st t i v :
  In (t, i, Fulfilled v) js -> i < length (values st) ->
  exists v', nth_error (values (fold_left react js st)) i = Some (Some v').
Proof.
  revert st. induction js as [|job js IH]; intros st Hin Hi; simpl.
  - destruct Hin.
  - destruct Hin as [->|Hin].
    + destruct (fulfil_sets_value st t i v Hi) as [v' Hv'].
      exists v'. clear IH. revert Hv'.
      generalize (react st (t, i, Fulfilled v)). clear.
      induction js as [|job js IH]; intros st Hv'; simpl; [exact Hv'|].
      apply IH. apply value_react_stable. exact Hv'.
    + apply IH; [exact Hin|]. rewrite length_values_react. exact Hi.
Qed.

(** The reject function settles the promise, if it is still pending. *)
Lemma fold_reject_settles js st t i e :
  In (t, i, Rejected e) js ->
  exists x, result (fold_left react js st) = Some x.
Proof.
  revert st. induction js as [|job js IH]; intros st Hin; simpl.
  - destruct Hin.
  - destruct Hin as [->|Hin]; [|apply IH; exact Hin].
    assert (H : exists x, result (react st (t, i, Rejected e)) = Some x).
    { unfold react. rewrite result_settle.
      destruct (result st) as [x|]; eexists; reflexivity. }
    destruct H as [x Hx]. exists x. apply result_fold_stable. exact Hx.
Qed.

Lemma settled_by_react bound st job :
  settled_by bound st -> fst (fst job) <= bound ->
  settled_by bound (react st job).
Proof.
  intros Hst Hjob t' x. destruct job as [[t i] [v|e]]; simpl in Hjob;
    unfold react.
  - unfold resolve_element.
    destruct (nth_error (values st) i) as [[w|]|]; try apply Hst.
    destruct (remaining st - 1 =? 0); [|apply Hst].
    rewrite result_settle. cbn [result].
    destruct (result st) as [[t0 x0]|] eqn:E.
    + intros [= <- <-]. apply (Hst _ _ E).
    + intros [= <- <-]. exact Hjob.
  - rewrite result_settle.
    destruct (result st) as [[t0 x0]|] eqn:E.
    + intros [= <- <-]. apply (Hst _ _ E).
    + intros [= <- <-]. exact Hjob.
Qed.

Lemma settled_by_fold bound js st :
  settled_by bound st ->
  (forall job, In job js -> fst (fst job) <= bound) ->
  settled_by bound (fold_left react js st).
Proof.
  revert st. induction js as [|job js IH]; intros st Hst Hjs; simpl.
  - exact Hst.
  - apply IH.
    + apply settled_by_react; [exact Hst|]. apply Hjs. left. reflexivity.
    + intros job' H. apply Hjs. right. exact H.
Qed.

Lemma settled_by_start bound n : settled_by bound (@all_start Exn T n).
Proof.
  intros t x. unfold all_start.
  destruct (1 + n - 1 =? 0).
  - rewrite result_settle. cbn [result]. intros [= <- <-]. lia.
  - discriminate.
Qed.

(** The jobs of a tick. *)
Lemma in_combine_seq {A : Type} (l : list A) a i (x : A) :
  In (i, x) (combine (seq a (length l)) l) <->
  exists k, i = a + k /\ nth_error l k = Some x.
Proof.
  revert a. induction l as [|y l IH]; intros a; simpl.
  - split; [intros []|]. intros [[|k] [_ H]]; discriminate H.
  - rewrite IH. split.
    + intros [[= <- <-]|(k & -> & Hk)].
      * exists 0. split; [lia|reflexivity].
      * exists (S k). split; [lia|exact Hk].
    + intros ([|k] & -> & Hk); simpl in Hk.
      * left. injection Hk as ->. f_equal. lia.
      * right. exists k. split; [lia|exact Hk].
Qed.

Lemma in_due items t job :
  In job (due items t) <-> fst (fst job) = t /\ valid_job items job.
Proof.
  unfold due, valid_job. rewrite in_flat_map. split.
  - intros ([i p] & Hin & Hjob). apply in_combine_seq in Hin.
    destruct Hin as (k & -> & Hk). simpl in *.
    destruct p as [[t' s]|]; [|destruct Hjob].
    destruct (t' =? t) eqn:Ht; [|destruct Hjob].
    apply Nat.eqb_eq in Ht. subst t'.
    destruct Hjob as [<-|[]]. simpl. split; [reflexivity|exact Hk].
  - destruct job as [[t' i] s]. simpl. intros [-> Hi].
    exists (i, Some (t, s)). split.
    + apply in_combine_seq. exists i. split; [reflexivity|exact Hi].
    + simpl. rewrite Nat.eqb_refl. left. reflexivity.
Qed.

Lemma in_flat_due items ticks job :
  In job (flat_map (due items) ticks) <->
  In (fst (fst job)) ticks /\ valid_job items job.
Proof.
  rewrite in_flat_map. split.
  - intros (t & Ht & Hjob). apply in_due in Hjob.
    destruct Hjob as [<- Hvalid]. split; assumption.
  - intros [Ht Hvalid]. exists (fst (fst job)). split; [exact Ht|].
    apply in_due. split; [reflexivity|exact Hvalid].
Qed.

Lemma horizon_bound items t s : In (Some (t, s)) items -> t <= horizon items.
Proof.
  induction items as [|p items IH]; simpl.
  - intros [].
  - intros [->|H].
    + lia.
    + specialize (IH H). destruct p as [[t' s']|]; lia.
Qed.

Lemma jobs_valid items : Forall (valid_job items) (jobs items).
Proof.
  apply Forall_forall. intros job H. apply in_flat_due in H. apply H.
Qed.

Lemma in_jobs items i t s :
  nth_error items i = Some (Some (t, s)) -> In (t, i, s) (jobs items).
Proof.
  intros H. apply in_flat_due. split; [cbn [fst]|exact H].
  apply in_seq. apply nth_error_In, horizon_bound in H. lia.
Qed.

(** The jobs up to tick [t] come before all later jobs. *)
Lemma jobs_split items t :
  t <= horizon items ->
  jobs items =
  flat_map (due items) (seq 0 (S t)) ++
  flat_map (due items) (seq (S t) (horizon items - t)).
Proof.
  intros Ht. unfold jobs. rewrite <- flat_map_app, <- seq_app.
  replace (S t + (horizon items - t)) with (S (horizon items)) by lia.
  reflexivity.
Qed.
End PromiseAll.

Section AwaitAll.
Context {Exn T : Type}.
Implicit Types (items : list (@Promise Exn T)) (vs : list T).

Lemma all_fulfilled_nth items vs i p :
  all_fulfilled items vs -> nth_error items i = Some p ->
  exists t v, p = Some (t, Fulfilled v).
Proof.
  intros H. revert i. induction H as [|q v items vs [t Hq] _ IH]; intros i.
  - destruct i; discriminate.
  - destruct i as [|i]; simpl.
    + intros [= <-]. exists t, v. exact Hq.
    + apply IH.
Qed.

Lemma fulfilled_values_unique items vs vs' :
  all_fulfilled items vs ->
  length vs' = length items ->
  (forall i v, nth_error vs' i = Some v ->
               exists t, nth_error items i = Some (Some (t, Fulfilled v))) ->
  vs' = vs.
Proof.
  intros H. revert vs'.
  induction H as [|p v items vs [t Hp] _ IH]; intros vs' Hlen Hnth.
  - destruct vs'; [reflexivity|discriminate].
  - destruct vs' as [|v' vs']; [discriminate|].
    destruct (Hnth 0 v' eq_refl) as [t' Ht']. simpl in Ht'.
    rewrite Hp in Ht'. injection Ht' as _ ->.
    f_equal. apply IH.
    + simpl in Hlen. lia.
    + intros i u Hi. apply (Hnth (S i) u Hi).
Qed.

(** When every item is fulfilled, [Promise.all] is fulfilled with the
    values in the order of the items. *)
Lemma Promise_all_fulfilled items vs :
  all_fulfilled items vs ->
  exists t, Promise_all items = Some (t, Fulfilled vs).
Proof.
  intros Hall. unfold Promise_all.
  pose proof (all_invariant_fold items (jobs items) _ (jobs_valid items)
                (all_invariant_start items)) as Hinv.
  destruct (all_invariant_start items) as (Hlen0 & _).
  set (st := fold_left react (jobs items) (all_start (length items))) in *.
  destruct Hinv as (Hlen & Hcount & Hvals & Hres).
  assert (Hset : count_none (values st) = 0).
  { apply count_none_all_set. intros i Hi. rewrite Hlen in Hi.
    destruct (nth_error items i) as [p|] eqn:Hp;
      [|apply nth_error_None in Hp; lia].
    destruct (all_fulfilled_nth _ _ _ _ Hall Hp) as (t & v & ->).
    apply (fold_sets_value _ _ t i v).
    - apply in_jobs. exact Hp.
    - rewrite Hlen0. exact Hi. }
  destruct (result st) as [[t [vs'|e]]|].
  - exists t. do 2 f_equal. f_equal.
    apply (fulfilled_values_unique items); [exact Hall| |].
    + rewrite <- Hlen, Hres, length_map. reflexivity.
    + intros i v Hi. apply Hvals. rewrite Hres, nth_error_map, Hi.
      reflexivity.
  - apply In_nth_error in Hres. destruct Hres as [i Hi].
    destruct (all_fulfilled_nth _ _ _ _ Hall Hi) as (t' & v & H).
    discriminate H.
  - lia.
Qed.

(** When an item is rejected, [Promise.all] is rejected, with the reason of
    an item that was rejected no later. *)
Lemma Promise_all_rejected items t e :
  In (Some (t, Rejected e)) items ->
  exists t' e',
    t' <= t /\ In (Some (t', Rejected e')) items /\
    Promise_all items = Some (t', Rejected e').
Proof.
  intros Hin. unfold Promise_all.
  pose proof (all_invariant_fold items (jobs items) _ (jobs_valid items)
                (all_invariant_start items)) as Hinv.
  pose proof (horizon_bound _ _ _ Hin) as Ht.
  destruct (In_nth_error _ _ Hin) as [k Hk].
  rewrite (jobs_split items t Ht), fold_left_app in Hinv |- *.
  set (st1 := fold_left react (flat_map (due items) (seq 0 (S t)))
                (all_start (length items))) in *.
  destruct (fold_reject_settles (flat_map (due items) (seq 0 (S t)))
              (all_start (length items)) t k e) as [[t' x] Hx].
  { apply in_flat_due. split; [apply in_seq; simpl; lia|exact Hk]. }
  fold st1 in Hx.
  assert (Hbound : t' <= t).
  { apply (settled_by_fold t (flat_map (due items) (seq 0 (S t)))
             (all_start (length items)) (settled_by_start t _)) with (x := x).
    - intros job Hjob. apply in_flat_due in Hjob.
      destruct Hjob as [Hjob _]. apply in_seq in Hjob. lia.
    - exact Hx. }
  pose proof (result_fold_stable
                (flat_map (due items) (seq (S t) (horizon items - t)))
                st1 _ Hx) as Hfinal.
  destruct Hinv as (Hlen & _ & Hvals & Hres). rewrite Hfinal in Hres |- *.
  destruct x as [vs|e'].
  - exfalso.
    assert (Hlt : k < length vs).
    { rewrite <- (length_map (@Some T)), <- Hres, Hlen.
      apply nth_error_Some. intros Hnone.
      discriminate (eq_trans (eq_sym Hnone) Hk). }
    destruct (nth_error vs k) as [v|] eqn:Hv;
      [|apply nth_error_None in Hv; lia].
    destruct (Hvals k v) as [t0 H0].
    + rewrite Hres, nth_error_map, Hv. reflexivity.
    + discriminate (eq_trans (eq_sym Hk) H0).
  - exists t', e'. repeat split; [exact Hbound|exact Hres].
Qed.

(** C9.  [AWAIT] is fulfilled with the values of the items, in their
    order, when every item is fulfilled.  When an item is rejected, [AWAIT]
    is rejected with the reason of an item that was rejected no later;
    that is the reason of this item when no other reason was given up to
    its tick.  [AWAIT_VOID] is settled at the same tick and in the same
    way, its value being [tt] on success. *)
Theorem await_all_settles items :
  (forall vs,
      all_fulfilled items vs ->
      exists t,
        AWAIT items = Some (t, Fulfilled vs) /\
        AWAIT_VOID items = Some (t, Fulfilled tt)) /\
  (forall t e,
      In (Some (t, Rejected e)) items ->
      exists t' e',
        t' <= t /\ In (Some (t', Rejected e')) items /\
        AWAIT items = Some (t', Rejected e') /\
        AWAIT_VOID items = Some (t', Rejected e')) /\
  (forall t e,
      In (Some (t, Rejected e)) items ->
      (forall t2 e2, In (Some (t2, Rejected e2)) items -> t2 <= t -> e2 = e) ->
      exists t',
        AWAIT items = Some (t', Rejected e) /\
        AWAIT_VOID items = Some (t', Rejected e)).
Proof.
  unfold AWAIT, AWAIT_VOID. split; [|split].
  - intros vs Hall. destruct (Promise_all_fulfilled items vs Hall) as [t ->].
    exists t. split; reflexivity.
  - intros t e Hin.
    destruct (Promise_all_rejected items t e Hin) as (t' & e' & Hle & Hin' & ->).
    exists t', e'. repeat split; assumption.
  - intros t e Hin Hfirst.
    destruct (Promise_all_rejected items t e Hin) as (t' & e' & Hle & Hin' & ->).
    rewrite (Hfirst t' e' Hin' Hle). exists t'. split; reflexivity.
Qed.
End AwaitAll.

Lemma await_all_settles_witness :
  (exists t,
      @AWAIT nat nat [Some (3, Fulfilled 1); Some (1, Fulfilled 2);
                      Some (2, Fulfilled 3)] = Some (t, Fulfilled [1; 2; 3]) /\
      @AWAIT_VOID nat nat [Some (3, Fulfilled 1); Some (1, Fulfilled 2);
                           Some (2, Fulfilled 3)] = Some (t, Fulfilled tt)) /\
  (exists t,
      @AWAIT nat nat [Some (3, Fulfilled 1); Some (5, Rejected 7);
                      Some (2, Fulfilled 3)] = Some (t, Rejected 7) /\
      @AWAIT_VOID nat nat [Some (3, Fulfilled 1); Some (5, Rejected 7);
                           Some (2, Fulfilled 3)] = Some (t, Rejected 7)).
Proof.
  split.
  - apply (proj1 (await_all_settles _)).
    repeat constructor; eexists; reflexivity.
  - apply (proj2 (proj2 (await_all_settles _)) 5 7).
    + right. left. reflexivity.
    + intros t2 e2 [H|[H|[H|[]]]] _; try discriminate H.
      injection H as _ <-. reflexivity.
Defined.

(** * Further properties *)

(** ** Lookup by value: [has], [add] and [remove] together *)

Section LookupFacts.
Context {R R2 World : Type}.
Implicit Types (m : @Machine R R2 World) (slot : SignalSlot).

Lemma strict_eq_refl (c : Context) : c <> NaN -> strict_eq c c = true.
Proof.
  destruct c as [| |v]; simpl; intros H.
  - reflexivity.
  - destruct (H eq_refl).
  - apply Nat.eqb_refl.
Qed.

Lemma strict_eq_NaN (c : Context) : strict_eq c NaN = false.
Proof. destruct c; reflexivity. Qed.

Lemma length_remove_first {A : Type} (p : A -> bool) (l : list A) :
  length (remove_first p l) + (if existsb p l then 1 else 0) = length l.
Proof.
  induction l as [|x rest IH]; simpl.
  - reflexivity.
  - destruct (p x); simpl; lia.
Qed.

Lemma remove_first_snoc {A : Type} (p : A -> bool) (l : list A) (x : A) :
  p x = true ->
  remove_first p (l ++ [x]) =
  if existsb p l then remove_first p l ++ [x] else l.
Proof.
  intros Hx. induction l as [|y rest IH]; simpl.
  - rewrite Hx. reflexivity.
  - destruct (p y); simpl.
    + reflexivity.
    + rewrite IH. destruct (existsb p rest); reflexivity.
Qed.

Lemma remove_first_commute (a b : SignalSlot) (l : list SignalSlot) :
  NoDup (map address l) ->
  remove_first (fun s => same_slot s a) (remove_first (fun s => same_slot s b) l)
  = remove_first (fun s => same_slot s b)
      (remove_first (fun s => same_slot s a) l).
Proof.
  induction l as [|x rest IH]; simpl; intros Hnd.
  - reflexivity.
  - inversion Hnd as [|? ? Hx Hrest]; subst.
    destruct (same_slot x b) eqn:Hb, (same_slot x a) eqn:Ha; simpl;
      rewrite ?Ha, ?Hb; try reflexivity.
    + apply same_slot_true in Ha, Hb.
      rewrite !remove_first_absent; [reflexivity| |];
        intros y Hy; apply same_slot_false; intros Heq; apply Hx;
        [rewrite Hb, <- Heq|rewrite Ha, <- Heq]; apply in_map; exact Hy.
    + f_equal. apply IH. exact Hrest.
Qed.

Lemma has_of_registered m (cb : Callback) (c : option Context) s :
  In s (slots m) -> matches cb (optional c) s = true -> has cb c m = true.
Proof.
  intros Hin Hs. unfold has. rewrite findIndex_found_iff.
  apply existsb_exists. exists s. split; assumption.
Qed.

Lemma strict_eq_true (a b : Context) : strict_eq a b = true -> a = b.
Proof.
  destruct a as [| |x], b as [| |y]; simpl; try discriminate.
  - reflexivity.
  - intros H. apply Nat.eqb_eq in H. subst y. reflexivity.
Qed.

Lemma existsb_remove_first_other {A : Type} (p q : A -> bool) (l : list A) :
  (forall x, p x = true -> q x = false) ->
  existsb q (remove_first p l) = existsb q l.
Proof.
  intros H. induction l as [|x rest IH]; simpl.
  - reflexivity.
  - destruct (p x) eqn:Hp; simpl.
    + rewrite (H x Hp). reflexivity.
    + rewrite IH. reflexivity.
Qed.

(** X1.  [has(callback, context)] is [true] exactly when some registered
    slot has that callback and a context that is [===] to the argument (a
    context that is left out is [undefined]). *)
Theorem has_iff_registered m (cb : Callback) (c : option Context) :
  has cb c m = true <->
  exists s, In s (slots m) /\ callback s = cb /\
            strict_eq (context s) (optional c) = true.
Proof.
  unfold has. rewrite findIndex_found_iff, existsb_exists.
  split; intros (s & Hin & H); exists s; split; try exact Hin.
  - unfold matches in H. apply andb_true_iff in H. destruct H as [H1 H2].
    apply Nat.eqb_eq in H1. split; assumption.
  - destruct H as [H1 H2]. unfold matches.
    rewrite H2, andb_true_r. apply Nat.eqb_eq. exact H1.
Qed.

(** X2.  [remove] returns what [has] answers for the same arguments just
    before, and the registry is one slot shorter when that is [true] and as
    long as before when it is [false]. *)
Theorem remove_returns_has m (cb : Callback) (c : option Context) :
  fst (remove cb c m) = has cb c m /\
  length (slots (snd (remove cb c m))) + (if has cb c m then 1 else 0) =
  length (slots m).
Proof.
  rewrite remove_as_remove_first. unfold has.
  rewrite findIndex_found_iff. cbn [fst snd]. rewrite slots_with_slots.
  split; [reflexivity|apply length_remove_first].
Qed.

(** X3.  A slot whose context is [NaN] is out of reach of the lookup by
    value: [NaN] is [===] to nothing, so in every state, also right after
    [add(callback, NaN)], [has(callback, NaN)] is [false] and
    [remove(callback, NaN)] returns [false] and changes nothing. *)
Theorem NaN_context_is_never_found m (cb : Callback) :
  has cb (Some NaN) m = false /\
  remove cb (Some NaN) m = (false, m) /\
  has cb (Some NaN) (snd (add cb (Some NaN) m)) = false /\
  slots (snd (remove cb (Some NaN) (snd (add cb (Some NaN) m)))) =
  slots m ++ [fst (add cb (Some NaN) m)].
Proof.
  assert (Hnone : forall (m' : @Machine R R2 World) x,
             In x (slots m') -> matches cb (optional (Some NaN)) x = false).
  { intros m' x _. unfold matches. simpl.
    rewrite strict_eq_NaN. apply andb_false_r. }
  assert (Hhas : forall m' : @Machine R R2 World, has cb (Some NaN) m' = false).
  { intros m'. unfold has. rewrite findIndex_found_iff.
    apply existsb_absent. apply Hnone. }
  assert (Hrem : forall m' : @Machine R R2 World,
             remove cb (Some NaN) m' = (false, m')).
  { intros m'. rewrite remove_as_remove_first.
    rewrite remove_first_absent, existsb_absent by apply Hnone.
    rewrite with_slots_same. reflexivity. }
  repeat split; try apply Hhas; try apply Hrem.
  rewrite Hrem. reflexivity.
Qed.

(** X4.  After [add(callback, context)] with a context other than [NaN],
    [has(callback, context)] is [true]. *)
Theorem add_then_has m (cb : Callback) (c : option Context) :
  optional c <> NaN ->
  has cb c (snd (add cb c m)) = true.
Proof.
  intros Hc. apply (has_of_registered _ cb c (fst (add cb c m))).
  - rewrite slots_add. apply in_or_app. right. left. reflexivity.
  - unfold matches. simpl. rewrite Nat.eqb_refl. apply strict_eq_refl.
    exact Hc.
Qed.

(** X5.  [remove(callback, context)] right after [add(callback, context)]
    (context other than [NaN]) always succeeds; it takes the new slot only
    when the pair was not registered before, and then [slots] is as before
    the [add]; otherwise it takes the oldest slot with that pair, as it
    would have without the [add], and the new slot stays, last. *)
Theorem add_then_remove m (cb : Callback) (c : option Context) :
  optional c <> NaN ->
  fst (remove cb c (snd (add cb c m))) = true /\
  slots (snd (remove cb c (snd (add cb c m)))) =
  if has cb c m
  then slots (snd (remove cb c m)) ++ [fst (add cb c m)]
  else slots m.
Proof.
  intros Hc.
  assert (Hnew : matches cb (optional c) (fst (add cb c m)) = true).
  { unfold matches. simpl. rewrite Nat.eqb_refl. apply strict_eq_refl.
    exact Hc. }
  rewrite !remove_as_remove_first. cbn [fst snd].
  rewrite !slots_with_slots, slots_add. split.
  - rewrite existsb_app. cbn [existsb]. rewrite Hnew. apply orb_true_r.
  - rewrite (remove_first_snoc _ _ _ Hnew). unfold has.
    rewrite findIndex_found_iff. reflexivity.
Qed.

(** X10.  Once [remove(callback, context)] has excised a slot, the
    [remove()] of that slot has no effect. *)
Theorem slot_remove_after_remove_is_noop
  m (cb : Callback) (c : option Context) l1 slot l2 :
  reachable m ->
  slots m = l1 ++ slot :: l2 ->
  (forall x, In x l1 -> matches cb (optional c) x = false) ->
  matches cb (optional c) slot = true ->
  slot_remove slot (snd (remove cb c m)) = snd (remove cb c m).
Proof.
  intros Hreach Hm Hl1 Hslot.
  destruct (reachable_well_formed _ Hreach) as [Hnd _].
  rewrite remove_as_remove_first, Hm. cbn [snd].
  rewrite remove_first_app by assumption.
  unfold slot_remove. rewrite removeSlot_as_remove_first, slots_with_slots.
  rewrite remove_first_absent; [reflexivity|].
  intros y Hy. apply same_slot_false. intros Heq.
  rewrite Hm, map_app in Hnd. simpl in Hnd. apply NoDup_remove_2 in Hnd.
  apply Hnd. rewrite <- map_app, <- Heq. apply in_map. exact Hy.
Qed.

(** X11.  The [remove()] calls of two slots can be made in either order:
    the state they leave is the same. *)
Theorem slot_removes_commute m (a b : SignalSlot) :
  reachable m ->
  slot_remove a (slot_remove b m) = slot_remove b (slot_remove a m).
Proof.
  intros Hreach. destruct (reachable_well_formed _ Hreach) as [Hnd _].
  unfold slot_remove. rewrite !removeSlot_as_remove_first, !slots_with_slots.
  rewrite (remove_first_commute a b _ Hnd). reflexivity.
Qed.
(** X17.  [remove(callback, context)] does not touch the registrations of
    another pair: for a different callback or a different context, [has]
    answers after the [remove] what it answered before. *)
Theorem remove_keeps_other_pairs
  m (cb cb' : Callback) (c c' : option Context) :
  cb' <> cb \/ optional c' <> optional c ->
  has cb' c' (snd (remove cb c m)) = has cb' c' m.
Proof.
  intros Hother. unfold has. rewrite !findIndex_found_iff.
  rewrite remove_as_remove_first. cbn [snd]. rewrite slots_with_slots.
  apply existsb_remove_first_other.
  intros x Hx. unfold matches in *.
  apply andb_true_iff in Hx. destruct Hx as [Hcb Hc].
  apply Nat.eqb_eq in Hcb. apply strict_eq_true in Hc.
  destruct (Nat.eqb (callback x) cb') eqn:Hcb'; [|reflexivity].
  apply Nat.eqb_eq in Hcb'.
  destruct (strict_eq (context x) (optional c')) eqn:Hc'; [|reflexivity].
  apply strict_eq_true in Hc'.
  destruct Hother as [H|H]; exfalso; apply H; congruence.
Qed.
End LookupFacts.

(** ** What [emit] returns and what it leaves alone *)

Section EmitReturn.
Context {Args R R2 Exn World : Type}.
Variable code : Callback -> Context -> Args -> @Listener R Exn World.
Implicit Types (m : @Machine R R2 World).

Lemma NoDup_firstn {A : Type} n (l : list A) : NoDup l -> NoDup (firstn n l).
Proof.
  revert n. induction l as [|x l IH]; intros [|n] H; simpl;
    try constructor.
  - inversion H; subst. intros Hin. apply in_firstn in Hin. contradiction.
  - inversion H; subst. apply IH. assumption.
Qed.

Lemma run_aggregator (body : @Listener R Exn World) m :
  aggregator (signal (snd (run body m))) = aggregator (signal m).
Proof.
  revert m. induction body as [v|e|cb c k IH|cb c k IH|cb c k IH|k IH
                              |slot k IH|k IH|w k IH]; intros m; simpl;
    try reflexivity; try (rewrite IH; reflexivity).
  - unfold remove.
    destruct (0 <=? findIndex (matches cb (optional c)) (slots m))%Z;
      rewrite IH; reflexivity.
  - rewrite IH. unfold slot_remove, removeSlot.
    destruct (0 <=? indexOf same_slot (slots m) slot)%Z; reflexivity.
Qed.

Lemma visit_aggregator l (args : Args) m :
  aggregator (signal (snd (fst (visit code l args m)))) =
  aggregator (signal m).
Proof.
  revert m. induction l as [|slot l IH]; intros m; simpl.
  - reflexivity.
  - pose proof (run_aggregator (code (callback slot) (context slot) args) m)
      as H1.
    unfold apply_callback.
    destruct (run (code (callback slot) (context slot) args) m) as [[v|e] m1].
    + specialize (IH m1).
      destruct (visit code l args m1) as [[c m2] log].
      simpl in *. rewrite IH. exact H1.
    + exact H1.
Qed.

Lemma perform_aggregator m (op : Operation) :
  aggregator (signal (perform m op)) = aggregator (signal m).
Proof.
  destruct op as [cb c|cb c|slot]; simpl.
  - reflexivity.
  - unfold remove.
    destruct (0 <=? findIndex (matches cb (optional c)) (slots m))%Z;
      reflexivity.
  - unfold slot_remove, removeSlot.
    destruct (0 <=? indexOf same_slot (slots m) slot)%Z; reflexivity.
Qed.

(** X6.  Without an aggregator, [emit] calls no aggregator and returns
    [undefined] or throws; when no listener throws it has applied every
    slot of the snapshot, in order, and returns [undefined]: the values the
    listeners returned are dropped. *)
Theorem emit_without_aggregator (args : Args) m :
  aggregator (signal m) = None ->
  aggregated (emit code args m) = [] /\
  (outcome (emit code args m) = Normal None \/
   exists e, outcome (emit code args m) = Thrown e) /\
  ((forall i e, In i (invoked (emit code args m)) -> completion i <> Thrown e) ->
   outcome (emit code args m) = Normal None /\
   invoked_slots (emit code args m) = slots m).
Proof.
  intros Hagg.
  pose proof (emit_invokes_all code args m) as Hall. revert Hall.
  rewrite emit_as_visit, Hagg.
  destruct (visit code (slots m) args (snd (slice ThisSlots m)))
    as [[[items|e] m1] log] eqn:E; cbn [aggregated outcome invoked];
    intros Hall.
  - repeat split; try (left; reflexivity). apply Hall. assumption.
  - split; [reflexivity|]. split; [right; exists e; reflexivity|].
    intros Hquiet. exfalso.
    destruct (visit_thrown code _ _ _ _ _ _ E) as (log' & i & -> & Hi & _).
    apply (Hquiet i e); [|exact Hi].
    apply in_or_app. right. left. reflexivity.
Qed.

(** X7.  With an aggregator, whatever it is and whatever the listeners do
    to the registry, an [emit] in which no listener throws calls the
    aggregator once, with the values the listeners of the snapshot
    returned, in the order of the snapshot, and returns what the aggregator
    returns. *)
Theorem emit_returns_aggregate (args : Args) m (agg : @Aggregator R R2) :
  aggregator (signal m) = Some agg ->
  (forall i e, In i (invoked (emit code args m)) -> completion i <> Thrown e) ->
  exists items,
    outcome (emit code args m) = Normal (Some (agg items)) /\
    length items = length (slots m) /\
    invoked_slots (emit code args m) = slots m /\
    map completion (invoked (emit code args m)) = map Normal items /\
    aggregated (emit code args m) = [items].
Proof.
  intros Hagg. unfold invoked_slots. rewrite emit_as_visit, Hagg.
  destruct (visit code (slots m) args (snd (slice ThisSlots m)))
    as [[[items|e] m1] log] eqn:E; cbn [aggregated outcome invoked];
    intros Hquiet.
  - destruct (visit_normal code _ _ _ _ _ _ E) as (Hl & Hc & Hlen).
    exists items. repeat split; assumption.
  - exfalso.
    destruct (visit_thrown code _ _ _ _ _ _ E) as (log' & i & -> & Hi & _).
    apply (Hquiet i e); [|exact Hi].
    apply in_or_app. right. left. reflexivity.
Qed.

(** X8.  In a reachable state, one [emit] call applies no slot object
    twice. *)
Theorem emit_invokes_no_slot_twice (args : Args) m :
  reachable m ->
  NoDup (map address (invoked_slots (emit code args m))).
Proof.
  intros Hreach. destruct (reachable_well_formed _ Hreach) as [Hnd _].
  rewrite emit_invokes_prefix, <- firstn_map.
  apply NoDup_firstn. exact Hnd.
Qed.

(** X9.  The aggregator is the one given to the constructor for good:
    neither [add], [remove], the [remove()] of a slot, nor an [emit],
    whatever its listeners do, changes it. *)
Theorem aggregator_never_changes (args : Args) m (ops : list Operation) :
  aggregator (signal (perform_all ops m)) = aggregator (signal m) /\
  aggregator (signal (after (emit code args m))) = aggregator (signal m).
Proof.
  split.
  - unfold perform_all. revert m.
    induction ops as [|op ops IH]; intros m; simpl; [reflexivity|].
    rewrite IH. apply perform_aggregator.
  - rewrite emit_as_visit.
    pose proof (visit_aggregator (slots m) args (snd (slice ThisSlots m)))
      as H.
    destruct (visit code (slots m) args (snd (slice ThisSlots m)))
      as [[[items|e] m1] log]; cbn [fst snd slice signal] in H;
      [destruct (aggregator (signal m))|]; exact H.
Qed.
(** X16.  Whatever the listeners do, an [emit] from a reachable state
    leaves a registry of distinct slot objects, each allocated before the
    next free address. *)
Theorem emit_keeps_registry_well_formed (args : Args) m :
  reachable m -> well_formed (after (emit code args m)).
Proof.
  intros H. apply reachable_well_formed. apply emit_reachable. exact H.
Qed.
End EmitReturn.

(** ** When [Promise.all] settles *)

Section AwaitTiming.
Context {Exn T : Type}.
Implicit Types (items : list (@Promise Exn T)) (st : @AllState Exn T).
Implicit Types (job : @Job Exn T) (js : list (@Job Exn T)).

(** A job leaves the values of the other elements as they are. *)
Lemma value_react_other st job k :
  snd (fst job) <> k ->
  nth_error (values (react st job)) k = nth_error (values st) k.
Proof.
  intros Hk. destruct job as [[t i] [v|e]]; simpl in Hk; unfold react.
  - unfold resolve_element.
    destruct (nth_error (values st) i) as [[w|]|]; try reflexivity.
    assert (Hset : nth_error (set_nth i (Some v) (values st)) k =
                   nth_error (values st) k).
    { rewrite nth_error_set_nth.
      replace (i =? k) with false; [reflexivity|].
      symmetry. apply Nat.eqb_neq. exact Hk. }
    destruct (remaining st - 1 =? 0);
      rewrite ?values_settle; cbn [values]; exact Hset.
  - rewrite values_settle. reflexivity.
Qed.

Lemma value_fold_other js st k :
  (forall job, In job js -> snd (fst job) <> k) ->
  nth_error (values (fold_left react js st)) k = nth_error (values st) k.
Proof.
  revert st. induction js as [|job js IH]; intros st H; simpl.
  - reflexivity.
  - rewrite IH by (intros j Hj; apply H; right; exact Hj).
    apply value_react_other. apply H. left. reflexivity.
Qed.

(** A promise that jobs of tick [tick] settle is settled at [tick]. *)
Lemma result_fold_tick tick js st :
  (forall t x, result st = Some (t, x) -> t = tick) ->
  (forall job, In job js -> fst (fst job) = tick) ->
  forall t x, result (fold_left react js st) = Some (t, x) -> t = tick.
Proof.
  revert st. induction js as [|job js IH]; intros st Hst Hjs; simpl.
  - exact Hst.
  - apply IH; [|intros j Hj; apply Hjs; right; exact Hj].
    pose proof (Hjs job (or_introl eq_refl)) as Hjob.
    intros t x. destruct job as [[t0 i] [v|e]]; simpl in Hjob; subst t0;
      unfold react.
    + unfold resolve_element.
      destruct (nth_error (values st) i) as [[w|]|]; try apply Hst.
      destruct (remaining st - 1 =? 0); [|apply Hst].
      rewrite result_settle. cbn [result].
      destruct (result st) as [[t1 x1]|] eqn:E.
      * intros [= <- <-]. apply (Hst _ _ eq_refl).
      * intros [= <- <-]. reflexivity.
    + rewrite result_settle.
      destruct (result st) as [[t1 x1]|] eqn:E.
      * intros [= <- <-]. apply (Hst _ _ eq_refl).
      * intros [= <- <-]. reflexivity.
Qed.

Lemma horizon_attained items :
  0 < horizon items ->
  exists k s, nth_error items k = Some (Some (horizon items, s)).
Proof.
  induction items as [|p items IH]; simpl.
  - lia.
  - destruct p as [[t s]|].
    + intros H. destruct (Nat.max_spec t (horizon items)) as [[Hlt ->]|[Hle ->]].
      * destruct (IH ltac:(lia)) as (k & s' & Hk).
        exists (S k), s'. exact Hk.
      * exists 0, s. reflexivity.
    + intros H. destruct (IH H) as (k & s' & Hk). exists (S k), s'. exact Hk.
Qed.

Lemma values_all_start n k :
  k < n -> nth_error (values (@all_start Exn T n)) k = Some None.
Proof.
  intros Hk. unfold all_start.
  assert (H : nth_error (repeat (@None T) n) k = Some None).
  { destruct (nth_error (repeat (@None T) n) k) as [o|] eqn:E.
    - apply nth_error_repeat_None in E. subst o. reflexivity.
    - apply nth_error_None in E. rewrite repeat_length in E. lia. }
  destruct (1 + n - 1 =? 0); rewrite ?values_settle; exact H.
Qed.

(** When every item is fulfilled, [Promise.all] is fulfilled at the tick of
    the last item, not before. *)
Lemma Promise_all_fulfilled_at_horizon items vs :
  all_fulfilled items vs ->
  Promise_all items = Some (horizon items, Fulfilled vs).
Proof.
  intros Hall. destruct (Promise_all_fulfilled items vs Hall) as [t Ht].
  rewrite Ht. do 2 f_equal. unfold Promise_all in Ht.
  destruct (horizon items) as [|h] eqn:Hh.
  - apply Nat.le_0_r.
    apply (settled_by_fold 0 (jobs items) (all_start (length items))
             (settled_by_start 0 _)) with (x := Fulfilled vs); [|exact Ht].
    intros job Hjob. apply in_flat_due in Hjob. destruct Hjob as [Hjob _].
    rewrite Hh in Hjob. apply in_seq in Hjob. lia.
  - destruct (horizon_attained items ltac:(lia)) as (k & s & Hk).
    rewrite Hh in Hk.
    assert (Hlt : k < length items)
      by (apply nth_error_Some; intros Hnone;
          discriminate (eq_trans (eq_sym Hnone) Hk)).
    rewrite (jobs_split items h ltac:(lia)), fold_left_app in Ht.
    rewrite Hh in Ht. replace (S h - h) with 1 in Ht by lia.
    set (st1 := fold_left react (flat_map (due items) (seq 0 (S h)))
                  (all_start (length items))) in *.
    assert (Hvalid : Forall (valid_job items)
                       (flat_map (due items) (seq 0 (S h)))).
    { apply Forall_forall. intros job Hjob. apply in_flat_due in Hjob.
      apply Hjob. }
    pose proof (all_invariant_fold items _ _ Hvalid
                  (all_invariant_start items)) as (_ & _ & _ & Hres).
    fold st1 in Hres.
    assert (Hunset : nth_error (values st1) k = Some None).
    { unfold st1. rewrite value_fold_other.
      - apply values_all_start. exact Hlt.
      - intros job Hjob Hidx. apply in_flat_due in Hjob.
        destruct Hjob as [Htick Hjob]. unfold valid_job in Hjob.
        rewrite Hidx in Hjob.
        pose proof (eq_trans (eq_sym Hk) Hjob) as Heq.
        injection Heq as Heq _. apply in_seq in Htick. lia. }
    assert (Hpending : result st1 = None).
    { destruct (result st1) as [[t1 [vs1|e1]]|]; [| |reflexivity].
      - rewrite Hres, nth_error_map in Hunset.
        destruct (nth_error vs1 k); discriminate Hunset.
      - apply In_nth_error in Hres. destruct Hres as [i Hi].
        destruct (all_fulfilled_nth _ _ _ _ Hall Hi) as (t' & v & H).
        discriminate H. }
    apply (result_fold_tick (S h) (flat_map (due items) (seq (S h) 1)) st1)
      with (x := Fulfilled vs); [| |exact Ht].
    + intros t' x Hx. rewrite Hpending in Hx. discriminate Hx.
    + intros job Hjob. apply in_flat_due in Hjob. destruct Hjob as [Hjob _].
      apply in_seq in Hjob. lia.
Qed.

(** While an item stays pending and none is rejected, [Promise.all] stays
    pending. *)
Lemma Promise_all_pending items :
  In None items ->
  (forall t e, ~ In (Some (t, Rejected e)) items) ->
  Promise_all items = None.
Proof.
  intros Hnone Hrej. unfold Promise_all.
  pose proof (all_invariant_fold items (jobs items) _ (jobs_valid items)
                (all_invariant_start items)) as (Hlen & _ & Hvals & Hres).
  destruct (result (fold_left react (jobs items) (all_start (length items))))
    as [[t [vs|e]]|]; [| |reflexivity]; exfalso.
  - destruct (In_nth_error _ _ Hnone) as [k Hk].
    assert (Hlt : k < length vs).
    { rewrite <- (length_map (@Some T)), <- Hres, Hlen.
      apply nth_error_Some. intros H.
      discriminate (eq_trans (eq_sym H) Hk). }
    destruct (nth_error vs k) as [v|] eqn:Hv;
      [|apply nth_error_None in Hv; lia].
    destruct (Hvals k v) as [t0 H0].
    + rewrite Hres, nth_error_map, Hv. reflexivity.
    + discriminate (eq_trans (eq_sym Hk) H0).
  - apply (Hrej t e). exact Hres.
Qed.

(** X12.  [AWAIT] and [AWAIT_VOID] never settle when an item never settles
    and no item is rejected: they neither give up nor return a partial
    result. *)
Theorem await_stays_pending items :
  In None items ->
  (forall t e, ~ In (Some (t, Rejected e)) items) ->
  AWAIT items = None /\ AWAIT_VOID items = None.
Proof.
  intros Hnone Hrej. unfold AWAIT, AWAIT_VOID.
  rewrite (Promise_all_pending items Hnone Hrej). split; reflexivity.
Qed.

(** X13.  When every item is fulfilled, [AWAIT] and [AWAIT_VOID] are
    fulfilled at the tick at which the last item is: they wait for all of
    the items and for nothing else. *)
Theorem await_waits_for_last items vs :
  all_fulfilled items vs ->
  AWAIT items = Some (horizon items, Fulfilled vs) /\
  AWAIT_VOID items = Some (horizon items, Fulfilled tt).
Proof.
  intros Hall. unfold AWAIT, AWAIT_VOID.
  rewrite (Promise_all_fulfilled_at_horizon items vs Hall).
  split; reflexivity.
Qed.
End AwaitTiming.

(** ** [emit] with the aggregator [AWAIT] *)

Section EmitAwait.
Context {Args Exn E T World : Type}.
Variable code : Callback -> Context -> Args -> @Listener (@Promise E T) Exn World.
Implicit Types (m : @Machine (@Promise E T) (@Promise E (list T)) World).

(** X14.  On a signal with the aggregator [AWAIT], an [emit] in which no
    listener throws returns a promise for the promises [items] the
    listeners returned: fulfilled, at the tick of the last of them, with
    their values in the order of the slots when all are fulfilled; and
    rejected, with the reason of one rejected no later, when one of them is
    rejected.  A rejected promise does not make [emit] throw. *)
Theorem emit_awaits_listeners (args : Args) m :
  aggregator (signal m) = Some AWAIT ->
  (forall i e, In i (invoked (emit code args m)) -> completion i <> Thrown e) ->
  exists items,
    map completion (invoked (emit code args m)) = map Normal items /\
    length items = length (slots m) /\
    (forall vs,
        all_fulfilled items vs ->
        outcome (emit code args m) =
        Normal (Some (Some (horizon items, Fulfilled vs)))) /\
    (forall t e,
        In (Some (t, Rejected e)) items ->
        exists t' e',
          t' <= t /\ In (Some (t', Rejected e')) items /\
          outcome (emit code args m) = Normal (Some (Some (t', Rejected e')))).
Proof.
  intros Hagg. rewrite emit_as_visit, Hagg.
  destruct (visit code (slots m) args (snd (slice ThisSlots m)))
    as [[[items|e] m1] log] eqn:Hv; cbn [aggregated outcome invoked];
    intros Hquiet.
  - destruct (visit_normal code _ _ _ _ _ _ Hv) as (_ & Hc & Hlen).
    exists items. split; [exact Hc|]. split; [exact Hlen|]. split.
    + intros vs Hall. unfold AWAIT.
      rewrite (Promise_all_fulfilled_at_horizon items vs Hall). reflexivity.
    + intros t e Hin.
      destruct (Promise_all_rejected items t e Hin)
        as (t' & e' & Hle & Hin' & Hall).
      exists t', e'. unfold AWAIT. rewrite Hall. repeat split; assumption.
  - exfalso.
    destruct (visit_thrown code _ _ _ _ _ _ Hv) as (log' & i & -> & Hi & _).
    apply (Hquiet i e); [|exact Hi].
    apply in_or_app. right. left. reflexivity.
Qed.
End EmitAwait.

(** ** The further properties on the scenarios *)

Lemma add_then_has_witness :
  has 2 (Some (Value 7)) (snd (add 2 (Some (Value 7)) Scenario.fresh)) = true.
Proof.
  apply (add_then_has Scenario.fresh 2 (Some (Value 7))). discriminate.
Defined.

Lemma add_then_remove_witness :
  fst (remove 2 None (snd (add 2 None Scenario.twice))) = true /\
  slots (snd (remove 2 None (snd (add 2 None Scenario.twice)))) =
  (if has 2 None Scenario.twice
   then slots (snd (remove 2 None Scenario.twice)) ++
        [fst (add 2 None Scenario.twice)]
   else slots Scenario.twice).
Proof.
  apply (add_then_remove Scenario.twice 2 None). discriminate.
Defined.

Lemma slot_remove_after_remove_is_noop_witness :
  slot_remove (mkSlot 0 2 (Value 7))
              (snd (remove 2 (Some (Value 7)) Scenario.thrice)) =
  snd (remove 2 (Some (Value 7)) Scenario.thrice).
Proof.
  apply (slot_remove_after_remove_is_noop Scenario.thrice 2 (Some (Value 7))
           [] (mkSlot 0 2 (Value 7))
           [mkSlot 1 2 (Value 7); mkSlot 2 2 (Value 7)]
           (reachable_perform_all _ _ (reach_new _ _)));
    [reflexivity|intros x []|reflexivity].
Defined.

Lemma slot_removes_commute_witness :
  slot_remove (mkSlot 0 2 (Value 7))
              (slot_remove (mkSlot 2 2 (Value 7)) Scenario.thrice) =
  slot_remove (mkSlot 2 2 (Value 7))
              (slot_remove (mkSlot 0 2 (Value 7)) Scenario.thrice).
Proof.
  apply (slot_removes_commute Scenario.thrice _ _
           (reachable_perform_all _ _ (reach_new _ _))).
Defined.

Lemma emit_without_aggregator_witness :
  outcome (emit Scenario.code tt MoreScenarios.silent) = Normal None /\
  invoked_slots (emit Scenario.code tt MoreScenarios.silent) =
  slots MoreScenarios.silent.
Proof.
  apply (proj2 (proj2 (emit_without_aggregator Scenario.code tt
                         MoreScenarios.silent eq_refl))).
  intros i e H. vm_compute in H.
  destruct H as [<-|[<-|[]]]; discriminate.
Defined.

Lemma emit_returns_aggregate_witness :
  exists items,
    outcome (emit Scenario.code tt Scenario.mutating) =
    Normal (Some (ARRAY items)) /\
    length items = length (slots Scenario.mutating) /\
    invoked_slots (emit Scenario.code tt Scenario.mutating) =
    slots Scenario.mutating /\
    map completion (invoked (emit Scenario.code tt Scenario.mutating)) =
    map Normal items /\
    aggregated (emit Scenario.code tt Scenario.mutating) = [items].
Proof.
  apply (emit_returns_aggregate Scenario.code tt Scenario.mutating ARRAY
           eq_refl).
  intros i e H. vm_compute in H.
  destruct H as [<-|[<-|[]]]; discriminate.
Defined.

Lemma emit_invokes_no_slot_twice_witness :
  NoDup (map address (invoked_slots (emit Scenario.code tt Scenario.thrice))).
Proof.
  apply (emit_invokes_no_slot_twice Scenario.code tt Scenario.thrice
           (reachable_perform_all _ _ (reach_new _ _))).
Defined.

Lemma await_stays_pending_witness :
  @AWAIT nat nat [Some (1, Fulfilled 1); None] = None /\
  @AWAIT_VOID nat nat [Some (1, Fulfilled 1); None] = None.
Proof.
  apply (await_stays_pending [Some (1, Fulfilled 1); None]).
  - right. left. reflexivity.
  - intros t e [H|[H|[]]]; discriminate H.
Defined.

Lemma await_waits_for_last_witness :
  @AWAIT nat nat [Some (3, Fulfilled 1); Some (1, Fulfilled 2)] =
  Some (horizon [Some (3, @Fulfilled nat nat 1); Some (1, Fulfilled 2)],
        Fulfilled [1; 2]) /\
  @AWAIT_VOID nat nat [Some (3, Fulfilled 1); Some (1, Fulfilled 2)] =
  Some (horizon [Some (3, @Fulfilled nat nat 1); Some (1, Fulfilled 2)],
        Fulfilled tt).
Proof.
  apply (await_waits_for_last [Some (3, Fulfilled 1); Some (1, Fulfilled 2)]
           [1; 2]).
  repeat constructor; eexists; reflexivity.
Defined.

Lemma emit_awaits_listeners_witness :
  exists items,
    map completion
        (invoked (emit MoreScenarios.async_code tt MoreScenarios.failing)) =
    map Normal items /\
    length items = length (slots MoreScenarios.failing) /\
    (forall vs,
        all_fulfilled items vs ->
        outcome (emit MoreScenarios.async_code tt MoreScenarios.failing) =
        Normal (Some (Some (horizon items, Fulfilled vs)))) /\
    (forall t e,
        In (Some (t, Rejected e)) items ->
        exists t' e',
          t' <= t /\ In (Some (t', Rejected e')) items /\
          outcome (emit MoreScenarios.async_code tt MoreScenarios.failing) =
          Normal (Some (Some (t', Rejected e')))).
Proof.
  apply (emit_awaits_listeners MoreScenarios.async_code tt
           MoreScenarios.failing eq_refl).
  intros i e H. vm_compute in H.
  destruct H as [<-|[<-|[<-|[]]]]; discriminate.
Defined.

Lemma remove_keeps_other_pairs_witness :
  has 1 None (snd (remove 2 None Scenario.mutating)) =
  has 1 None Scenario.mutating.
Proof.
  apply (remove_keeps_other_pairs Scenario.mutating 2 1 None None).
  left. discriminate.
Defined.

Lemma emit_log_sound_witness :
  option_map state_before
    (nth_error (invoked (emit Scenario.code tt Scenario.mutating)) 1) =
  option_map state_after
    (nth_error (invoked (emit Scenario.code tt Scenario.mutating)) 0).
Proof.
  pose proof (proj2 (proj2 (emit_log_sound Scenario.code tt
                              Scenario.mutating)) 0) as H.
  destruct (nth_error (invoked (emit Scenario.code tt Scenario.mutating)) 0)
    as [i|] eqn:E0; [|vm_compute in E0; discriminate E0].
  destruct (nth_error (invoked (emit Scenario.code tt Scenario.mutating)) 1)
    as [j|] eqn:E1; [|vm_compute in E1; discriminate E1].
  simpl. f_equal. apply (H i j eq_refl eq_refl).
Defined.

Lemma emit_keeps_registry_well_formed_witness :
  well_formed (after (emit Scenario.code tt Scenario.mutating)).
Proof.
  apply (emit_keeps_registry_well_formed Scenario.code tt Scenario.mutating
           (reachable_perform_all _ _ (reach_new _ _))).
Defined.
